(** * A shallow embedding of [parallel_map] (src/utils.py)

    [parallel_map] applies a function to every element of a list or of an
    iterator: the first [front_num] elements serially, the remaining ones
    either serially ([n_jobs == 1]) or on a [ThreadPoolExecutor], and gathers
    the results in a Python list.

    The embedding is a state-and-exception monad over
      - a store of Python list objects (the output list is an object that the
        caller may already hold: [initial_value or list()]),
      - the log of the calls made to [function], in the order they ran,
      - the progress bars written by [tqdm].
    [function] is given by what each call returns or raises; that the call
    took place is what the log records. The thread pool is deterministic up
    to a schedule: the order in which the submitted tasks complete. *)

From Stdlib Require Import ZArith Lia.
From stdpp Require Import base option list gmap.

Local Open Scope Z_scope.

(** ** Exceptions and outcomes *)

(** Instances of Python's [Exception]: the errors a call can fail with, and
    the ones [except Exception] catches. *)
Inductive exn : Type :=
  | StopIteration      (* [next] on an exhausted iterator *)
  | ValueError         (* [ThreadPoolExecutor(max_workers=n)] with [n <= 0] *)
  | TypeError          (* [list.extend] of an object that is not iterable *)
  | ZeroDivisionError
  | UserError (code : Z).

(** A Python call returns an object or raises. *)
Inductive outcome (X : Type) : Type :=
  | Returns (x : X)
  | Raises (e : exn).
Arguments Returns {X} x.
Arguments Raises {X} e.

(** What the function needs from the objects that end up in the output list:
    an exception instance is an object like any other (it can be appended),
    and [list.extend] iterates over its argument, raising [TypeError] on an
    object that is not iterable. *)
Class PyObject (V : Type) : Type := {
  exception_object : exn → V;
  py_iter : V → outcome (list V)
}.

(** Addresses of list objects. *)
Definition loc : Type := positive.

(** One line of progress output: which of the three [tqdm] bars moved. *)
Inductive tick : Type :=
  | SerialBar                (* line 73, [tqdm(iterables)] *)
  | CompletedBar (i : nat)   (* line 85, [tqdm(as_completed(futures), ...)] *)
  | HarvestBar (i : nat).    (* line 94, [tqdm(enumerate(futures))] *)

(** Python's slice bound: a negative bound counts from the end of the list. *)
Definition slice_bound (k : Z) (len : nat) : nat :=
  if k <? 0 then Z.to_nat (Z.of_nat len + k) else Z.to_nat k.

(** [l[:k]] and [l[k:]]. *)
Definition slice_to {A} (k : Z) (l : list A) : list A :=
  take (slice_bound k (length l)) l.
Definition slice_from {A} (k : Z) (l : list A) : list A :=
  drop (slice_bound k (length l)) l.

Section ParallelMap.
(** [A]: the elements of [iterables]; [V]: the objects [function] returns. *)
Context {A V : Type} `{PyObject V}.

(** ** The state *)

Record state : Type := State {
  heap : gmap loc (list V);
  calls : list A;
  console : list tick
}.

Definition set_heap (f : gmap loc (list V) → gmap loc (list V)) (s : state) : state :=
  State (f (heap s)) (calls s) (console s).
Definition log_call (a : A) (s : state) : state :=
  State (heap s) (calls s ++ [a]) (console s).
Definition log_tick (t : tick) (s : state) : state :=
  State (heap s) (calls s) (console s ++ [t]).

(** ** The monad *)

Definition M (X : Type) : Type := state → outcome X * state.

Definition ret {X} (x : X) : M X := λ s, (Returns x, s).
Definition raise {X} (e : exn) : M X := λ s, (Raises e, s).
Definition bind {X Y} (m : M X) (k : X → M Y) : M Y :=
  λ s, match m s with
       | (Returns x, s') => k x s'
       | (Raises e, s') => (Raises e, s')
       end.
(** [try: m except Exception as e: handler(e)] *)
Definition try_except {X} (m : M X) (handler : exn → M X) : M X :=
  λ s, match m s with
       | (Returns x, s') => (Returns x, s')
       | (Raises e, s') => handler e s'
       end.
Definition modify (f : state → state) : M unit := λ s, (Returns (), f s).

Notation "'let*' x := m 'in' k" := (bind m (λ x, k))
  (at level 10, x pattern, m at level 100, k at level 200).
Notation "m ;;; k" := (bind m (λ _, k))
  (at level 100, k at level 200, right associativity).

(** [for x in xs: body(x)] *)
Fixpoint for_each {X} (xs : list X) (body : X → M unit) : M unit :=
  match xs with
  | [] => ret ()
  | x :: xs' => body x ;;; for_each xs' body
  end.

(** [[f(x) for x in xs]] *)
Fixpoint comprehension {X Y} (f : X → M Y) (xs : list X) : M (list Y) :=
  match xs with
  | [] => ret []
  | x :: xs' => let* y := f x in let* ys := comprehension f xs' in ret (y :: ys)
  end.

(** ** The arguments of [parallel_map] *)

(** [iterables: Union[list, iter]]. An iterator is given by the elements it
    has yet to yield. *)
Inductive iterables : Type :=
  | PyList (l : list A)
  | PyIter (l : list A).

Definition elements_of (it : iterables) : list A :=
  match it with PyList l | PyIter l => l end.

(** [function: callable], under the two ways the code calls it:
    [function(a)] and [function( **a )]. With [use_kwargs] the elements are
    dictionaries of keyword arguments (docstring), so unpacking [**a]
    itself does not fail; a failure is the call's. *)
Record callable : Type := Callable {
  positional : A → outcome V;
  keywords : A → outcome V
}.

(** The keyword parameters. The [Optional[...]] annotations of the source
    only mark that a default exists; [initial_value] and [add_func] are the
    two parameters that are [None] by default. [add_func(x, output)]
    receives the output list object and may mutate the store or raise. *)
Record config : Type := Config {
  n_jobs : Z;
  use_kwargs : bool;
  front_num : Z;
  show_progress_bar : bool;
  initial_value : option loc;
  raise_errors : bool;
  include_errors : bool;
  extend_result : bool;
  return_output : bool;
  add_func : option (V → loc → gmap loc (list V) → outcome unit * gmap loc (list V))
}.

(** The defaults of the signature (lines 11-16). *)
Definition defaults : config :=
  Config 16 false 3 true None false true false true None.

Section Body.
Variable function : callable.
Variable cfg : config.

(** [function( **a ) if use_kwargs else function(a)]: what the call returns
    or raises, and the call itself, which is logged. *)
Definition apply_function (a : A) : outcome V :=
  if use_kwargs cfg then keywords function a else positional function a.

Definition call (a : A) : M V :=
  λ s, (apply_function a, log_call a s).

(** The iterator branch of the warm-up (lines 48-51):
    [for _ in range(front_num): a = next(iterables); front.append(...)].
    Returns [front] and what is left of the iterator. *)
Fixpoint front_of_iter (n : nat) (rest : list A) (front : list V)
  : M (list V * list A) :=
  match n with
  | O => ret (front, rest)
  | S n' =>
      match rest with
      | [] => raise StopIteration
      | a :: rest' =>
          let* x := call a in front_of_iter n' rest' (front ++ [x])
      end
  end.

(** Lines 44-51. *)
Definition warm_up (it : iterables) : M (list V * list A) :=
  match it with
  | PyList l =>
      let* front := comprehension call (slice_to (front_num cfg) l) in
      ret (front, slice_from (front_num cfg) l)
  | PyIter l => front_of_iter (Z.to_nat (front_num cfg)) l []
  end.

(** [output.append(x)] and [output.extend(x)] on the list object at
    [output]. *)
Definition list_append (output : loc) (x : V) : M unit :=
  modify (set_heap (alter (λ l, l ++ [x]) output)).
Definition list_extend (output : loc) (x : V) : M unit :=
  match py_iter x with
  | Returns xs => modify (set_heap (alter (λ l, l ++ xs) output))
  | Raises e => raise e
  end.

(** Lines 53-65. *)
Definition _add_func (x : V) (output : loc) : M unit :=
  if negb (return_output cfg) then ret ()
  else match add_func cfg with
       | Some g =>
           λ s, let '(o, h) := g x output (heap s) in (o, set_heap (λ _, h) s)
       | None =>
           if extend_result cfg then list_extend output x
           else list_append output x
       end.

(** Line 67, [initial_value or list()]: the caller's list object when it
    is given and not empty, a newly allocated empty list otherwise. *)
Definition truthy (h : gmap loc (list V)) (o : option loc) : bool :=
  match o with
  | Some l => match h !! l with Some (_ :: _) => true | _ => false end
  | None => false
  end.
Definition initial_value_or_list : M loc :=
  λ s, if truthy (heap s) (initial_value cfg)
       then (Returns (default 1%positive (initial_value cfg)), s)
       else let r := fresh (dom (heap s)) in
            (Returns r, set_heap (insert r []) s).

(** *** The pool *)

(** A future: the element it was submitted with and, once its task has
    run, what the call returned or raised. *)
Definition future : Type := A * option (outcome V).

(** [ThreadPoolExecutor(max_workers=n_jobs)]; the constructor raises
    [ValueError] unless [max_workers > 0]. *)
Definition ThreadPoolExecutor (max_workers : Z) : M unit :=
  if max_workers <=? 0 then raise ValueError else ret ().

(** [pool.submit(function, a)] *)
Definition submit (a : A) : future := (a, None).

(** A worker runs a task: the call is made, and what it returns or raises
    is stored in the future, never raised in the worker. *)
Definition run_task (a : A) : M (outcome V) :=
  λ s, (Returns (apply_function a), log_call a s).

(** The task of future [i] completes (if it has not yet); the bar of
    line 85 moves unless it is disabled. *)
Definition complete (i : nat) (futures : list future) : M (list future) :=
  match futures !! i with
  | Some (a, None) =>
      let* o := run_task a in
      (if show_progress_bar cfg then modify (log_tick (CompletedBar i)) else ret ()) ;;;
      ret (<[i := (a, Some o)]> futures)
  | _ => ret futures
  end.

Fixpoint complete_all (order : list nat) (futures : list future)
  : M (list future) :=
  match order with
  | [] => ret futures
  | i :: order' =>
      let* futures' := complete i futures in complete_all order' futures'
  end.

(** Lines 85-88 and the exit of the [with] block: the tasks complete in
    the order [sched] gives; [as_completed] yields every future, so the
    loop ends only when the tasks [sched] leaves out have run too. *)
Definition as_completed (sched : list nat) (futures : list future)
  : M (list future) :=
  complete_all (sched ++ seq 0 (length futures)) futures.

(** [future.result()]: the stored result, or the stored exception raised
    again. On a future whose task has not run it waits for the task. *)
Definition result (f : future) : M V :=
  match f with
  | (_, Some (Returns x)) => ret x
  | (_, Some (Raises e)) => raise e
  | (a, None) => call a
  end.

(** Lines 94-101. *)
Definition harvest (output : loc) (futures : list future) : M unit :=
  for_each (imap (λ i f, (i, f)) futures) (λ '(i, f),
    modify (log_tick (HarvestBar i)) ;;;
    try_except
      (let* x := result f in _add_func x output)
      (λ exception,
         if raise_errors cfg then raise exception
         else if include_errors cfg
              then _add_func (exception_object exception) output
              else ret ())).

(** Lines 71-77. *)
Definition serial (output : loc) (rest : list A) : M (option loc) :=
  for_each rest (λ a,
    modify (log_tick SerialBar) ;;;
    let* x := call a in _add_func x output) ;;;
  ret (if return_output cfg then Some output else None).

(** The function. [sched] is the order in which the pool completes the
    tasks. The result is [Some output] for [return output] and [None]
    for [return None]. *)
Definition parallel_map (sched : list nat) (it : iterables) : M (option loc) :=
  let* (front, rest) := warm_up it in
  let* output := initial_value_or_list in
  for_each front (λ x, _add_func x output) ;;;
  if n_jobs cfg =? 1 then serial output rest
  else
    ThreadPoolExecutor (n_jobs cfg) ;;;
    let* futures := as_completed sched (submit <$> rest) in
    if negb (return_output cfg) then ret None
    else harvest output futures ;;; ret (Some output).
End Body.
End ParallelMap.

Arguments state : clear implicits.
Arguments M : clear implicits.
Arguments iterables : clear implicits.
Arguments callable : clear implicits.
Arguments config : clear implicits.
Arguments future : clear implicits.

(** ** Concrete objects for the closed examples *)

(** Integers, exception instances and lists of integers. *)
Inductive pyobj : Type :=
  | PyInt (z : Z)
  | PyExc (e : exn)
  | PyInts (zs : list Z).

#[global] Instance pyobj_object : PyObject pyobj := {|
  exception_object := PyExc;
  py_iter v := match v with
               | PyInts zs => Returns (PyInt <$> zs)
               | _ => Raises TypeError
               end
|}.

(** [lambda x: 10 // x] *)
Definition ten_div (x : Z) : outcome pyobj :=
  if x =? 0 then Raises ZeroDivisionError else Returns (PyInt (10 / x)).

(** [lambda x: x * x] *)
Definition square (x : Z) : outcome pyobj := Returns (PyInt (x * x)).

Definition lambda (f : Z → outcome pyobj) : callable Z pyobj := Callable f f.

(** [lambda x: [x, x]] *)
Definition twice (x : Z) : outcome pyobj := Returns (PyInts [x; x]).

(** [lambda x: [10 // x]] *)
Definition ten_div_list (x : Z) : outcome pyobj :=
  if x =? 0 then Raises ZeroDivisionError else Returns (PyInts [10 / x]).

(** An [add_func] that always raises. *)
Definition failing_add_func (x : pyobj) (output : loc) (h : gmap loc (list pyobj))
  : outcome unit * gmap loc (list pyobj) :=
  (Raises (UserError 1), h).

(** The state a call starts from when the caller holds no list. *)
Definition empty_state : state Z pyobj := State ∅ [] [].


(** The configurations of the examples: the defaults of the signature but
    for the fields named. *)
Definition example_cfg (jobs front : Z) (raises includes returns : bool)
  : config pyobj :=
  Config jobs false front true None raises includes false returns None.

(** A caller that already holds the list [[7]], at address 1. *)
Definition held_state : state Z pyobj := State {[ 1%positive := [PyInt 7] ]} [] [].

(** ** Vocabulary of the statements *)

Section Vocabulary.
Context {A V : Type} `{PyObject V}.
Variable function : callable A V.
Variable cfg : config V.

(** The call on [a] returns (does not raise). *)
Definition succeeds (a : A) : Prop :=
  ∃ v, apply_function function cfg a = Returns v.

(** The elements the warm-up visits and the ones it leaves: the two slices
    of a list, [front_num] steps of an iterator. *)
Definition warm_inputs (it : iterables A) : list A :=
  match it with
  | PyList l => slice_to (front_num cfg) l
  | PyIter l => take (Z.to_nat (front_num cfg)) l
  end.
Definition rest_inputs (it : iterables A) : list A :=
  match it with
  | PyList l => slice_from (front_num cfg) l
  | PyIter l => drop (Z.to_nat (front_num cfg)) l
  end.

(** An iterator has enough elements for the warm-up ([next] never raises
    [StopIteration]); a slice of a list never runs out. *)
Definition long_enough (it : iterables A) : Prop :=
  match it with
  | PyList _ => True
  | PyIter l => (Z.to_nat (front_num cfg) ≤ length l)%nat
  end.

(** The state after the calls on [l], in this order. *)
Definition log_calls (l : list A) (s : state A V) : state A V :=
  State (heap s) (calls s ++ l) (console s).

(** The futures of [rest] once every task has run. *)
Definition finished (rest : list A) : list (future A V) :=
  (λ a, (a, Some (apply_function function cfg a))) <$> rest.

(** The object [output] names: the caller's list when [initial_value] is a
    list that is not empty, else the next free address; the store once
    [output] is bound; the entries [output] starts with. *)
Definition output_of (h : gmap loc (list V)) : loc :=
  if truthy h (initial_value cfg)
  then default 1%positive (initial_value cfg)
  else fresh (dom h).
Definition bound_heap (h : gmap loc (list V)) : gmap loc (list V) :=
  if truthy h (initial_value cfg) then h else <[fresh (dom h) := []]> h.
Definition initial_entries (h : gmap loc (list V)) : list V :=
  default [] (h !! output_of h).

(** [_add_func(v, output)] cannot raise: the call is skipped, or a custom
    [add_func] does not raise on [v], or [v] is iterable under
    [extend_result]. *)
Definition accumulates (v : V) : Prop :=
  return_output cfg = true →
  match add_func cfg with
  | Some g => ∀ r h, (g v r h).1 = Returns ()
  | None => extend_result cfg = true → ∃ xs, py_iter v = Returns xs
  end.

(** [_add_func] is the built-in [output.append]. *)
Definition appends : Prop :=
  return_output cfg = true ∧ add_func cfg = None ∧ extend_result cfg = false.

(** The stores before and after [_add_func] has added the values [vs], one
    after the other, without raising. *)
Inductive accumulated (r : loc)
  : list V → gmap loc (list V) → gmap loc (list V) → Prop :=
  | accumulated_nil h : accumulated r [] h h
  | accumulated_cons v vs h h' h'' :
      (∀ c k, _add_func cfg v r (State h c k : state A V)
              = (Returns (), State h' c k)) →
      accumulated r vs h' h'' →
      accumulated r (v :: vs) h h''.

(** Every future keeps the element it was submitted with, and an outcome it
    holds is the outcome of the call on this element. *)
Definition pool_inv (rest : list A) (futures : list (future A V)) : Prop :=
  Forall2 (λ a (f : future A V),
    f.1 = a ∧ ∀ o, f.2 = Some o → o = apply_function function cfg a) rest futures.

(** The task of future [i] has run. *)
Definition done (futures : list (future A V)) (i : nat) : Prop :=
  ∃ a o, futures !! i = Some (a, Some o).

(** The elements whose task has run. *)
Definition ran (futures : list (future A V)) : list A :=
  omap (λ f : future A V, match f.2 with Some _ => Some f.1 | None => None end) futures.

(** What lines 94-101 add to the output under the built-in [append], and the
    exception they raise, if any, from the outcomes in submission order. *)
Fixpoint harvested (os : list (outcome V)) : list V * option exn :=
  match os with
  | [] => ([], None)
  | Returns v :: os' => let '(vs, r) := harvested os' in (v :: vs, r)
  | Raises e :: os' =>
      if raise_errors cfg then ([], Some e)
      else let '(vs, r) := harvested os' in
           ((if include_errors cfg then [exception_object e] else []) ++ vs, r)
  end.
End Vocabulary.

Section Simulation.
Context {A V : Type}.

(** [cfg] with another value of [show_progress_bar]. *)
Definition with_progress (b : bool) (cfg : config V) : config V :=
  Config (n_jobs cfg) (use_kwargs cfg) (front_num cfg) b (initial_value cfg)
    (raise_errors cfg) (include_errors cfg) (extend_result cfg)
    (return_output cfg) (add_func cfg).

(** [cfg] with another value of [front_num]. *)
Definition with_front_num (k : Z) (cfg : config V) : config V :=
  Config (n_jobs cfg) (use_kwargs cfg) k (show_progress_bar cfg) (initial_value cfg)
    (raise_errors cfg) (include_errors cfg) (extend_result cfg)
    (return_output cfg) (add_func cfg).

(** The count of warm-up elements a [front_num] stands for, negative ones
    included: Python's slice bound for a list, the length of [range] for an
    iterator. *)
Definition effective_front_num (cfg : config V) (it : iterables A) : Z :=
  match it with
  | PyList l => Z.max 0 (if front_num cfg <? 0
                         then Z.of_nat (length l) + front_num cfg
                         else front_num cfg)
  | PyIter _ => Z.max 0 (front_num cfg)
  end.

(** The entry an outcome leaves in the output when errors are included, and
    when they are dropped. *)
Definition entry_of `{PyObject V} (o : outcome V) : V :=
  match o with Returns v => v | Raises e => exception_object e end.
Definition value_of (o : outcome V) : option V :=
  match o with Returns v => Some v | Raises _ => None end.
Definition failed (o : outcome V) : bool :=
  match o with Returns _ => false | Raises _ => true end.

(** Two states with the same store and the same calls made, in some order:
    they differ at most in the order of the calls and in what the console
    shows. *)
Definition agree (s1 s2 : state A V) : Prop :=
  heap s1 = heap s2 ∧ calls s1 ≡ₚ calls s2.

(** Two computations that, from states that agree, end the same way (the
    same object returned, the same exception raised) in states that agree. *)
Definition sim {X} (m1 m2 : M A V X) : Prop :=
  ∀ s1 s2, agree s1 s2 → (m1 s1).1 = (m2 s2).1 ∧ agree (m1 s1).2 (m2 s2).2.
End Simulation.

Section Variations.
Context {A V : Type}.

(** [cfg] with another value of [include_errors]. *)
Definition with_include_errors (b : bool) (cfg : config V) : config V :=
  Config (n_jobs cfg) (use_kwargs cfg) (front_num cfg) (show_progress_bar cfg)
    (initial_value cfg) (raise_errors cfg) b (extend_result cfg)
    (return_output cfg) (add_func cfg).

(** [cfg] with another [extend_result] and another [add_func]. *)
Definition with_accumulator (extends : bool)
    (add : option (V → loc → gmap loc (list V) → outcome unit * gmap loc (list V)))
    (cfg : config V) : config V :=
  Config (n_jobs cfg) (use_kwargs cfg) (front_num cfg) (show_progress_bar cfg)
    (initial_value cfg) (raise_errors cfg) (include_errors cfg) extends
    (return_output cfg) add.

(** A computation whose final state, however it ends, is related to the
    state it starts from. *)
Definition keeps {X} (R : state A V → state A V → Prop) (m : M A V X) : Prop :=
  ∀ s, R s (m s).2.

(** Nothing has been written to the console. *)
Definition same_console (s s' : state A V) : Prop := console s' = console s.

(** No call has been made. *)
Definition same_calls (s s' : state A V) : Prop := calls s' = calls s.
End Variations.

(** * Properties *)

Section Properties.
Context {A V : Type} `{PyObject V}.
Implicit Types (function : callable A V) (cfg : config V) (s : state A V).
Implicit Types (it : iterables A) (l pre post rest : list A) (vs front : list V).
Implicit Types (sched : list nat) (a : A) (e : exn) (output r : loc).

Lemma slice_to_from (k : Z) l : slice_to k l ++ slice_from k l = l.
Proof. apply take_drop. Qed.

Lemma slice_to_nonneg (k : Z) l : 0 ≤ k → slice_to k l = take (Z.to_nat k) l.
Proof.
  intros Hk. unfold slice_to, slice_bound.
  destruct (Z.ltb_spec k 0); [lia | done].
Qed.

Lemma slice_from_nonneg (k : Z) l : 0 ≤ k → slice_from k l = drop (Z.to_nat k) l.
Proof.
  intros Hk. unfold slice_from, slice_bound.
  destruct (Z.ltb_spec k 0); [lia | done].
Qed.

Lemma warm_rest_inputs cfg it :
  warm_inputs cfg it ++ rest_inputs cfg it = elements_of it.
Proof. destruct it; simpl; [apply slice_to_from | apply take_drop]. Qed.

Lemma warm_inputs_take cfg it :
  0 ≤ front_num cfg → warm_inputs cfg it = take (Z.to_nat (front_num cfg)) (elements_of it).
Proof. intros Hk. destruct it; simpl; [by apply slice_to_nonneg | done]. Qed.

Lemma log_calls_app l1 l2 s : log_calls l2 (log_calls l1 s) = log_calls (l1 ++ l2) s.
Proof. unfold log_calls. simpl. by rewrite app_assoc. Qed.

Lemma log_calls_nil s : log_calls [] s = s.
Proof. destruct s. unfold log_calls. simpl. by rewrite app_nil_r. Qed.

Lemma log_call_calls a s : log_call a s = log_calls [a] s.
Proof. done. Qed.

(** *** The warm-up *)

Lemma comprehension_ok function cfg l vs s :
  Forall2 (λ a v, apply_function function cfg a = Returns v) l vs →
  comprehension (call function cfg) l s = (Returns vs, log_calls l s).
Proof.
  intros Hall. revert s. induction Hall as [|a v l vs Ha _ IH]; intros s; simpl.
  - by rewrite log_calls_nil.
  - unfold bind, call at 1. rewrite Ha, IH. simpl.
    by rewrite log_call_calls, log_calls_app.
Qed.

Lemma comprehension_raises function cfg pre a post e s :
  Forall (succeeds function cfg) pre →
  apply_function function cfg a = Raises e →
  comprehension (call function cfg) (pre ++ a :: post) s
  = (Raises e, log_calls (pre ++ [a]) s).
Proof.
  intros Hpre Ha. revert s. induction Hpre as [|b pre [v Hb] _ IH]; intros s; simpl.
  - unfold bind, call. by rewrite Ha.
  - unfold bind, call at 1. rewrite Hb, IH. simpl.
    by rewrite log_call_calls, log_calls_app.
Qed.

Lemma front_of_iter_ok function cfg (n : nat) l vs front s :
  (n ≤ length l)%nat →
  Forall2 (λ a v, apply_function function cfg a = Returns v) (take n l) vs →
  front_of_iter function cfg n l front s
  = (Returns (front ++ vs, drop n l), log_calls (take n l) s).
Proof.
  revert l vs front s. induction n as [|n IH]; intros l vs front s Hn Hall.
  - rewrite take_0 in Hall. inversion Hall; subst. simpl.
    by rewrite app_nil_r, log_calls_nil.
  - destruct l as [|a l]; simpl in Hn; [lia|].
    simpl in Hall. inversion Hall as [|? v ? vs' Ha Hall']; subst.
    simpl. unfold bind, call at 1. rewrite Ha.
    rewrite (IH l vs'); [|lia|done].
    by rewrite <- app_assoc, log_call_calls, log_calls_app.
Qed.

Lemma front_of_iter_raises function cfg (n : nat) l pre a post e front s :
  take n l = pre ++ a :: post →
  Forall (succeeds function cfg) pre →
  apply_function function cfg a = Raises e →
  front_of_iter function cfg n l front s = (Raises e, log_calls (pre ++ [a]) s).
Proof.
  revert l pre front s. induction n as [|n IH]; intros l pre front s Htake Hpre Ha.
  - rewrite take_0 in Htake. by destruct pre.
  - destruct l as [|b l]; [by destruct pre|].
    simpl in Htake. destruct pre as [|b' pre]; simplify_eq/=.
    + unfold bind, call. by rewrite Ha.
    + inversion Hpre as [|? ? [v Hb] Hpre']; subst.
      unfold bind, call at 1. rewrite Hb.
      rewrite (IH l pre); [|done..].
      by rewrite log_call_calls, log_calls_app.
Qed.

Lemma warm_up_ok function cfg it vs s :
  long_enough cfg it →
  Forall2 (λ a v, apply_function function cfg a = Returns v) (warm_inputs cfg it) vs →
  warm_up function cfg it s
  = (Returns (vs, rest_inputs cfg it), log_calls (warm_inputs cfg it) s).
Proof.
  intros Hlen Hall. destruct it as [l|l]; simpl in *.
  - unfold bind. by rewrite (comprehension_ok _ _ _ vs).
  - by rewrite (front_of_iter_ok _ _ _ _ vs).
Qed.

Lemma warm_up_raises function cfg it pre a post e s :
  take (Z.to_nat (front_num cfg)) (elements_of it) = pre ++ a :: post →
  Forall (succeeds function cfg) pre →
  apply_function function cfg a = Raises e →
  warm_up function cfg it s = (Raises e, log_calls (pre ++ [a]) s).
Proof.
  intros Htake Hpre Ha. destruct it as [l|l]; simpl in *.
  - assert (0 ≤ front_num cfg) as Hk.
    { destruct (Z.le_gt_cases 0 (front_num cfg)) as [|Hneg]; [done|].
      replace (Z.to_nat (front_num cfg)) with 0%nat in Htake by lia.
      by destruct pre. }
    rewrite slice_to_nonneg, Htake by done.
    unfold bind. by rewrite (comprehension_raises _ _ _ _ _ e).
  - by apply front_of_iter_raises with post.
Qed.
(** *** Accumulation *)

Local Abbreviation accumulated := (accumulated (A:=A)).

Lemma _add_func_skip cfg (x : V) r s :
  return_output cfg = false → _add_func cfg x r s = (Returns (), s).
Proof. intros Hret. unfold _add_func. by rewrite Hret. Qed.

Lemma _add_func_append cfg (x : V) r h (c : list A) k :
  appends cfg →
  _add_func cfg x r (State h c k)
  = (Returns (), State (alter (λ xs : list V, xs ++ [x]) r h) c k).
Proof.
  intros (Hret & Hadd & Hext). unfold _add_func. by rewrite Hret, Hadd, Hext.
Qed.

Lemma accumulated_skip cfg r vs h :
  return_output cfg = false → accumulated cfg r vs h h.
Proof.
  intros Hret. induction vs as [|v vs IH]; econstructor; [|exact IH].
  intros c k. by apply _add_func_skip.
Qed.

Lemma accumulated_append cfg r vs h :
  appends cfg → accumulated cfg r vs h (alter (λ xs : list V, xs ++ vs) r h).
Proof.
  intros Happ. revert h. induction vs as [|v vs IH]; intros h.
  - replace (alter (λ xs : list V, xs ++ []) r h) with h; [constructor|].
    symmetry. apply alter_id. intros xs _. apply app_nil_r.
  - econstructor.
    + intros c k. by apply _add_func_append.
    + replace (alter (λ xs : list V, xs ++ v :: vs) r h)
        with (alter (λ xs : list V, xs ++ vs) r (alter (λ xs : list V, xs ++ [v]) r h)); [apply IH|].
      rewrite alter_alter_eq. apply alter_ext. intros xs _. simpl.
      by rewrite <- app_assoc.
Qed.

Lemma accumulated_total cfg r vs h :
  Forall (accumulates cfg) vs → ∃ h', accumulated cfg r vs h h'.
Proof.
  intros Hall. revert h. induction Hall as [|v vs Hv _ IH]; intros h.
  { eexists. constructor. }
  assert (∃ h1, ∀ (c : list A) k,
    _add_func cfg v r (State h c k) = (Returns (), State h1 c k)) as [h1 Hh1].
  { unfold accumulates in Hv. unfold _add_func.
    destruct (return_output cfg); simpl; [|by eexists].
    specialize (Hv eq_refl). destruct (add_func cfg) as [g|].
    - specialize (Hv r h). destruct (g v r h) as [o h1] eqn:Hg.
      simpl in Hv. subst o. exists h1. intros c k. simpl. by rewrite Hg.
    - unfold list_extend, list_append. destruct (extend_result cfg).
      + destruct (Hv eq_refl) as [xs ->].
        by exists (alter (λ ys : list V, ys ++ xs) r h).
      + by exists (alter (λ ys : list V, ys ++ [v]) r h). }
  destruct (IH h1) as [h' Hh']. exists h'. by econstructor.
Qed.

Lemma accumulated_app cfg r vs1 vs2 h h' h'' :
  accumulated cfg r vs1 h h' → accumulated cfg r vs2 h' h'' →
  accumulated cfg r (vs1 ++ vs2) h h''.
Proof.
  intros H1 H2. induction H1; simpl; [done|]. econstructor; [done|]. by apply IHaccumulated.
Qed.

Lemma accumulated_app_inv cfg r vs1 vs2 h h'' :
  accumulated cfg r (vs1 ++ vs2) h h'' →
  ∃ h', accumulated cfg r vs1 h h' ∧ accumulated cfg r vs2 h' h''.
Proof.
  revert h. induction vs1 as [|v vs1 IH]; intros h Hacc; simpl in *.
  - exists h. split; [constructor | done].
  - inversion Hacc as [|? ? ? h1 ? Hv Hrest]; subst.
    destruct (IH _ Hrest) as (h' & H1 & H2).
    exists h'. split; [by econstructor | done].
Qed.

Lemma accumulated_fun cfg r vs h h1 h2 :
  accumulated cfg r vs h h1 → accumulated cfg r vs h h2 → h1 = h2.
Proof.
  intros H1. revert h2. induction H1 as [|v vs h h' h'' Hv _ IH]; intros h2 H2.
  - by inversion H2.
  - inversion H2 as [|? ? ? h3 ? Hv' Hrest]; subst.
    specialize (Hv [] []). rewrite (Hv' [] []) in Hv. simplify_eq. by apply IH.
Qed.

(** Lines 68-69. *)
Lemma for_each_add cfg r vs h h' (c : list A) k :
  accumulated cfg r vs h h' →
  for_each vs (λ x, _add_func cfg x r) (State h c k) = (Returns (), State h' c k).
Proof.
  intros Hacc. induction Hacc as [|v vs h h1 h' Hv _ IH]; simpl; [done|].
  unfold bind. by rewrite Hv.
Qed.

(** Line 67. *)
Lemma initial_value_or_list_run cfg h (c : list A) k :
  initial_value_or_list cfg (State h c k)
  = (Returns (output_of cfg h), State (bound_heap cfg h) c k).
Proof.
  unfold initial_value_or_list, output_of, bound_heap. simpl.
  by destruct (truthy h (initial_value cfg)).
Qed.

Lemma output_of_fresh cfg h :
  initial_value cfg = None → output_of cfg h ∉ dom h.
Proof. intros Hini. unfold output_of. rewrite Hini. simpl. apply is_fresh. Qed.

(** Appending to the list [output] names, from the store the call starts
    with. *)
Lemma alter_bound_heap cfg h vs :
  alter (λ xs : list V, xs ++ vs) (output_of cfg h) (bound_heap cfg h)
  = <[output_of cfg h := initial_entries cfg h ++ vs]> h.
Proof.
  unfold initial_entries, output_of, bound_heap.
  destruct (truthy h (initial_value cfg)) eqn:Htruthy.
  - unfold truthy in Htruthy. destruct (initial_value cfg) as [l0|]; [|done]. simpl.
    destruct (h !! l0) as [xs|] eqn:Hl0; [|done]. simpl.
    apply map_eq. intros j. rewrite lookup_alter, lookup_insert.
    destruct (decide (l0 = j)) as [<-|]; [by rewrite Hl0 | done].
  - assert (h !! fresh (dom h) = None) as Hnone.
    { apply not_elem_of_dom. apply is_fresh. }
    rewrite Hnone. simpl. by rewrite alter_insert_eq.
Qed.

(** *** The serial branch *)

Lemma serial_loop_ok function cfg r rest vs h h' (c : list A) k :
  Forall2 (λ a v, apply_function function cfg a = Returns v) rest vs →
  accumulated cfg r vs h h' →
  for_each rest (λ a,
    bind (modify (log_tick SerialBar)) (λ _,
      bind (call function cfg a) (λ x, _add_func cfg x r))) (State h c k)
  = (Returns (), State h' (c ++ rest) (k ++ replicate (length rest) SerialBar)).
Proof.
  intros Hall. revert h c k.
  induction Hall as [|a v rest vs Ha _ IH]; intros h c k Hacc.
  - inversion Hacc; subst. simpl. by rewrite !app_nil_r.
  - inversion Hacc as [|? ? ? h1 ? Hv Hrest]; subst. simpl.
    unfold bind at 1. simpl. unfold bind at 1, call at 1. rewrite Ha.
    unfold log_call, log_tick. simpl. unfold bind at 1. rewrite Hv.
    rewrite IH by done. simpl. by rewrite <- !app_assoc.
Qed.

Lemma serial_loop_raises function cfg r pre a post e vs h h' (c : list A) k :
  Forall2 (λ a v, apply_function function cfg a = Returns v) pre vs →
  apply_function function cfg a = Raises e →
  accumulated cfg r vs h h' →
  for_each (pre ++ a :: post) (λ a,
    bind (modify (log_tick SerialBar)) (λ _,
      bind (call function cfg a) (λ x, _add_func cfg x r))) (State h c k)
  = (Raises e, State h' (c ++ pre ++ [a])
                     (k ++ replicate (S (length pre)) SerialBar)).
Proof.
  intros Hall Hraise. revert h c k.
  induction Hall as [|b v pre vs Hb _ IH]; intros h c k Hacc.
  - inversion Hacc; subst. simpl.
    unfold bind at 1. simpl. unfold bind at 1, call at 1. by rewrite Hraise.
  - inversion Hacc as [|? ? ? h1 ? Hv Hrest]; subst. simpl.
    unfold bind at 1. simpl. unfold bind at 1, call at 1. rewrite Hb.
    unfold log_call, log_tick. simpl. unfold bind at 1. rewrite Hv.
    rewrite IH by done. simpl. by rewrite <- !app_assoc.
Qed.
(** *** The pool *)

Lemma ran_submit rest : ran (submit (V:=V) <$> rest) = [].
Proof. induction rest as [|a rest IH]; [done|]. by simpl. Qed.

Lemma ran_finished function cfg rest : ran (finished function cfg rest) = rest.
Proof.
  induction rest as [|a rest IH]; [done|].
  unfold ran, finished in *. simpl. by f_equal.
Qed.

Lemma ran_insert (fs : list (future A V)) (i : nat) a (o : outcome V) :
  fs !! i = Some (a, None) → ran (<[i := (a, Some o)]> fs) ≡ₚ ran fs ++ [a].
Proof.
  revert i. induction fs as [|f fs IH]; intros i Hi; [done|].
  destruct i as [|i]; simpl in *.
  - simplify_eq. unfold ran. simpl. apply Permutation_cons_append.
  - unfold ran in *. simpl. destruct (f.2); simpl; [|by apply IH].
    by rewrite IH.
Qed.

Lemma pool_inv_submit function cfg rest : pool_inv function cfg rest (submit <$> rest).
Proof.
  unfold pool_inv. induction rest as [|a rest IH]; simpl; constructor; [|done].
  split; [done|]. intros o. simpl. discriminate.
Qed.

Lemma pool_inv_length function cfg rest (fs : list (future A V)) :
  pool_inv function cfg rest fs → length fs = length rest.
Proof. intros Hinv. symmetry. by eapply Forall2_length. Qed.

(** When every task has run the futures hold the outcomes of the calls, in
    submission order. *)
Lemma pool_inv_done function cfg rest (fs : list (future A V)) :
  pool_inv function cfg rest fs →
  (∀ i, (i < length fs)%nat → done fs i) →
  fs = finished function cfg rest.
Proof.
  unfold pool_inv. intros Hinv. induction Hinv as [|a f rest fs [Ha Ho] _ IH]; intros Hdone.
  { done. }
  unfold finished. simpl. f_equal.
  - destruct (Hdone 0%nat) as (b & o & Hf); [simpl; lia|].
    simpl in Hf. simplify_eq. simpl in *. by rewrite (Ho o).
  - apply IH. intros i Hi. destruct (Hdone (S i)) as (b & o & Hf); [simpl; lia|].
    by exists b, o.
Qed.

Lemma complete_run function cfg rest (i : nat) (fs : list (future A V)) h c k :
  ∃ fs' ran' k',
    complete function cfg i fs (State h c k) = (Returns fs', State h (c ++ ran') k')
    ∧ ran fs' ≡ₚ ran fs ++ ran'
    ∧ (pool_inv function cfg rest fs → pool_inv function cfg rest fs')
    ∧ length fs' = length fs
    ∧ (∀ j, done fs j → done fs' j)
    ∧ ((i < length fs)%nat → done fs' i).
Proof.
  unfold complete. destruct (fs !! i) as [[a [o|]]|] eqn:Hi.
  - exists fs, [], k. rewrite !app_nil_r. split_and!; try done.
    intros _. by exists a, o.
  - exists (<[i := (a, Some (apply_function function cfg a))]> fs), [a].
    exists (if show_progress_bar cfg then k ++ [CompletedBar i] else k). split_and!.
    + unfold bind, run_task. simpl. by destruct (show_progress_bar cfg).
    + by apply ran_insert.
    + unfold pool_inv. intros Hinv.
      assert (rest !! i = Some a) as Hrest.
      { destruct (Forall2_lookup_r _ _ _ _ _ Hinv Hi) as (b & Hb & Hfst & _).
        simpl in Hfst. by subst. }
      rewrite <- (list_insert_id rest i a) by done.
      apply Forall2_insert; [done|]. split; [done|]. simpl. by intros o [= <-].
    + by rewrite length_insert.
    + intros j (b & o & Hj). destruct (decide (i = j)) as [<-|Hne].
      * congruence.
      * exists b, o. by rewrite list_lookup_insert_ne.
    + intros Hlt. eexists _, _. by apply list_lookup_insert_eq.
  - exists fs, [], k. rewrite !app_nil_r. split_and!; try done.
    intros Hlt. apply lookup_ge_None_1 in Hi. unfold future in *. lia.
Qed.

Lemma complete_all_run function cfg rest (order : list nat) (fs : list (future A V)) h c k :
  ∃ fs' ran' k',
    complete_all function cfg order fs (State h c k)
    = (Returns fs', State h (c ++ ran') k')
    ∧ ran fs' ≡ₚ ran fs ++ ran'
    ∧ (pool_inv function cfg rest fs → pool_inv function cfg rest fs')
    ∧ length fs' = length fs
    ∧ (∀ j, done fs j → done fs' j)
    ∧ (∀ j, j ∈ order → (j < length fs)%nat → done fs' j).
Proof.
  revert fs c k. induction order as [|i order IH]; intros fs c k.
  - exists fs, [], k. simpl. rewrite !app_nil_r. split_and!; try done.
    intros j Hj. by apply elem_of_nil in Hj.
  - destruct (complete_run function cfg rest i fs h c k)
      as (fs1 & ran1 & k1 & Hrun1 & Hran1 & Hinv1 & Hlen1 & Hmono1 & Hdone1).
    destruct (IH fs1 (c ++ ran1) k1)
      as (fs2 & ran2 & k2 & Hrun2 & Hran2 & Hinv2 & Hlen2 & Hmono2 & Hdone2).
    exists fs2, (ran1 ++ ran2), k2. split_and!.
    + simpl. unfold bind. rewrite Hrun1, Hrun2. by rewrite app_assoc.
    + by rewrite Hran2, Hran1, app_assoc.
    + auto.
    + congruence.
    + auto.
    + intros j Hj Hlt. apply elem_of_cons in Hj as [->|Hj].
      * auto.
      * apply Hdone2; [done | lia].
Qed.

(** Lines 79-88: whatever the order of completion, every task runs, once,
    and the futures end up holding the outcomes in submission order. *)
Lemma as_completed_run function cfg sched rest h c k :
  ∃ c' k',
    as_completed function cfg sched (submit <$> rest) (State h c k)
    = (Returns (finished function cfg rest), State h c' k')
    ∧ c' ≡ₚ c ++ rest.
Proof.
  unfold as_completed.
  destruct (complete_all_run function cfg rest
              (sched ++ seq 0 (length (submit (V:=V) <$> rest))) (submit <$> rest) h c k)
    as (fs' & ran' & k' & Hrun & Hran & Hinv & Hlen & _ & Hdone).
  specialize (Hinv (pool_inv_submit function cfg rest)).
  assert (fs' = finished function cfg rest) as ->.
  { apply pool_inv_done; [done|]. intros i Hi. apply Hdone; [|lia].
    apply elem_of_app. right. apply elem_of_seq. lia. }
  exists (c ++ ran'), k'. split; [done|].
  rewrite ran_finished, ran_submit in Hran. simpl in Hran. by rewrite Hran.
Qed.
(** *** The harvest *)

Lemma for_each_app {X} (xs ys : list X) (body : X → M A V ()) s :
  for_each (xs ++ ys) body s = bind (for_each xs body) (λ _, for_each ys body) s.
Proof.
  revert s. induction xs as [|x xs IH]; intros s; simpl.
  - done.
  - unfold bind at 1 2 3. destruct (body x s) as [[[]|e] s1]; [|done].
    by rewrite IH.
Qed.

Lemma enumerate_snd (fs : list (future A V)) : (imap (λ i f, (i, f)) fs).*2 = fs.
Proof.
  rewrite fmap_imap. induction fs as [|f fs IH]; [done|]. simpl. f_equal.
  rewrite <- IH at 2. by apply imap_ext.
Qed.

(** The body of the loop of lines 94-101. *)
Local Abbreviation harvest_body function cfg r :=
  (λ '(i, f),
     bind (modify (log_tick (HarvestBar i))) (λ _,
       try_except
         (bind (result function cfg f) (λ x, _add_func cfg x r))
         (λ exception,
            if raise_errors cfg then raise exception
            else if include_errors cfg
                 then _add_func cfg (exception_object exception) r
                 else ret ()))).

Lemma harvest_step_ok function cfg r (i : nat) a v h h' c k :
  apply_function function cfg a = Returns v →
  (∀ c k, _add_func cfg v r (State h c k : state A V) = (Returns (), State h' c k)) →
  harvest_body function cfg r (i, (a, Some (apply_function function cfg a))) (State h c k)
  = (Returns (), State h' c (k ++ [HarvestBar i])).
Proof.
  intros Ha Hv. unfold bind, try_except, modify, log_tick. simpl.
  rewrite Ha. simpl. unfold ret. by rewrite Hv.
Qed.

Lemma harvest_step_raises function cfg r (i : nat) a e h c k :
  apply_function function cfg a = Raises e →
  raise_errors cfg = true →
  harvest_body function cfg r (i, (a, Some (apply_function function cfg a))) (State h c k)
  = (Raises e, State h c (k ++ [HarvestBar i])).
Proof.
  intros Ha Hraise. unfold bind, try_except, modify, log_tick. simpl.
  rewrite Ha. simpl. unfold raise. by rewrite Hraise.
Qed.

(** The futures of successful calls are harvested in the order of the list. *)
Lemma harvest_loop_ok function cfg r (ifs : list (nat * future A V)) pre vs h h' c k :
  ifs.*2 = finished function cfg pre →
  Forall2 (λ a v, apply_function function cfg a = Returns v) pre vs →
  accumulated cfg r vs h h' →
  ∃ k', for_each ifs (harvest_body function cfg r) (State h c k)
        = (Returns (), State h' c k').
Proof.
  intros Hifs Hall. revert ifs h k Hifs.
  induction Hall as [|a v pre vs Ha _ IH]; intros ifs h k Hifs Hacc.
  - destruct ifs; [|done]. inversion Hacc; subst. by exists k.
  - destruct ifs as [|[i f] ifs]; [done|]. simpl in Hifs. simplify_eq.
    inversion Hacc as [|? ? ? h1 ? Hv Hrest]; subst.
    destruct (IH ifs h1 (k ++ [HarvestBar i])) as [k' Hk']; [done..|].
    exists k'. cbn [for_each]. unfold bind at 1.
    by rewrite (harvest_step_ok _ _ _ _ _ v h h1).
Qed.

Lemma alter_app (r : loc) (xs ys : list V) (h : gmap loc (list V)) :
  alter (λ zs : list V, zs ++ ys) r (alter (λ zs : list V, zs ++ xs) r h)
  = alter (λ zs : list V, zs ++ (xs ++ ys)) r h.
Proof.
  rewrite alter_alter_eq. apply alter_ext. intros zs _. simpl.
  by rewrite <- app_assoc.
Qed.

Lemma harvest_step_skip function cfg r (i : nat) a e h c k :
  apply_function function cfg a = Raises e →
  raise_errors cfg = false →
  appends cfg →
  harvest_body function cfg r (i, (a, Some (apply_function function cfg a))) (State h c k)
  = (Returns (),
     State (alter (λ xs : list V, xs ++
              (if include_errors cfg then [exception_object e] else [])) r h)
           c (k ++ [HarvestBar i])).
Proof.
  intros Ha Hraise Happ. unfold bind, try_except, modify, log_tick. simpl.
  rewrite Ha. simpl. unfold raise. rewrite Hraise. destruct (include_errors cfg).
  - by rewrite _add_func_append.
  - unfold ret. rewrite alter_id; [done|]. intros xs _. apply app_nil_r.
Qed.

Lemma harvested_returns cfg (v : V) os :
  harvested cfg (Returns v :: os)
  = (v :: (harvested cfg os).1, (harvested cfg os).2).
Proof. simpl. by destruct (harvested cfg os). Qed.

Lemma harvested_raises cfg e (os : list (outcome V)) :
  raise_errors cfg = true → harvested cfg (Raises e :: os) = ([], Some e).
Proof. intros Hraise. simpl. by rewrite Hraise. Qed.

Lemma harvested_contained cfg e (os : list (outcome V)) :
  raise_errors cfg = false →
  harvested cfg (Raises e :: os)
  = ((if include_errors cfg then [exception_object e] else []) ++ (harvested cfg os).1,
     (harvested cfg os).2).
Proof. intros Hraise. simpl. rewrite Hraise. by destruct (harvested cfg os). Qed.

Lemma outcome_cases {X} (o : outcome X) : (∃ x, o = Returns x) ∨ (∃ e, o = Raises e).
Proof. destruct o; eauto. Qed.

(** Under the built-in [append], lines 94-101 compute [harvested]. *)
Lemma harvest_loop_appends function cfg r (ifs : list (nat * future A V)) rest h c k :
  appends cfg →
  ifs.*2 = finished function cfg rest →
  ∃ k', for_each ifs (harvest_body function cfg r) (State h c k)
        = (match (harvested cfg (apply_function function cfg <$> rest)).2 with
           | None => Returns ()
           | Some e => Raises e
           end,
           State (alter (λ xs : list V, xs ++
                    (harvested cfg (apply_function function cfg <$> rest)).1) r h) c k').
Proof.
  intros Happ. revert ifs h k. induction rest as [|a rest IH]; intros ifs h k Hifs.
  - destruct ifs; [|done]. exists k. simpl.
    rewrite alter_id; [done|]. intros xs _. apply app_nil_r.
  - destruct ifs as [|[i f] ifs]; [done|]. simpl in Hifs. simplify_eq.
    cbn [for_each]. unfold bind at 1. rewrite fmap_cons.
    destruct (outcome_cases (apply_function function cfg a)) as [[v Ha]|[e Ha]].
    + rewrite (harvest_step_ok _ _ _ _ _ v h (alter (λ xs : list V, xs ++ [v]) r h))
        by (done || (intros; by apply _add_func_append)).
      destruct (IH ifs (alter (λ xs : list V, xs ++ [v]) r h) (k ++ [HarvestBar i]))
        as [k' ->]; [done|].
      exists k'. by rewrite Ha, harvested_returns, alter_app.
    + assert (raise_errors cfg = true ∨ raise_errors cfg = false) as [Hraise|Hraise]
        by (destruct (raise_errors cfg); auto).
      * rewrite (harvest_step_raises _ _ _ _ _ e) by done.
        eexists. rewrite Ha, harvested_raises by done. simpl.
        rewrite alter_id; [done|]. intros xs _. apply app_nil_r.
      * rewrite (harvest_step_skip _ _ _ _ _ e) by done.
        destruct (IH ifs (alter (λ xs : list V, xs ++
                            (if include_errors cfg then [exception_object e] else [])) r h)
                    (k ++ [HarvestBar i])) as [k' ->]; [done|].
        exists k'. by rewrite Ha, harvested_contained, alter_app.
Qed.
(** *** The branches of [parallel_map] *)

(** What is left of [parallel_map] once the warm-up has succeeded. *)
Lemma parallel_map_after_warm_up function cfg sched it vs h h1 c k :
  long_enough cfg it →
  Forall2 (λ a v, apply_function function cfg a = Returns v) (warm_inputs cfg it) vs →
  accumulated cfg (output_of cfg h) vs (bound_heap cfg h) h1 →
  parallel_map function cfg sched it (State h c k)
  = (if n_jobs cfg =? 1
     then serial function cfg (output_of cfg h) (rest_inputs cfg it)
     else
       bind (ThreadPoolExecutor (n_jobs cfg)) (λ _,
         bind (as_completed function cfg sched (submit <$> rest_inputs cfg it))
           (λ futures,
              if negb (return_output cfg) then ret None
              else bind (harvest function cfg (output_of cfg h) futures)
                     (λ _, ret (Some (output_of cfg h))))))
      (State h1 (c ++ warm_inputs cfg it) k).
Proof.
  intros Hlen Hwarm Hacc. unfold parallel_map. unfold bind at 1.
  rewrite (warm_up_ok _ _ _ vs) by done. unfold log_calls. simpl.
  unfold bind at 1. rewrite initial_value_or_list_run.
  unfold bind at 1. by rewrite (for_each_add _ _ _ _ h1).
Qed.

Lemma serial_ok function cfg r rest vs h h' c k :
  Forall2 (λ a v, apply_function function cfg a = Returns v) rest vs →
  accumulated cfg r vs h h' →
  ∃ k', serial function cfg r rest (State h c k)
        = (Returns (if return_output cfg then Some r else None),
           State h' (c ++ rest) k').
Proof.
  intros Hall Hacc. eexists. unfold serial. unfold bind at 1.
  by rewrite (serial_loop_ok _ _ _ _ vs h h').
Qed.

Lemma serial_raises function cfg r pre a post e vs h h' c k :
  Forall2 (λ a v, apply_function function cfg a = Returns v) pre vs →
  apply_function function cfg a = Raises e →
  accumulated cfg r vs h h' →
  ∃ k', serial function cfg r (pre ++ a :: post) (State h c k)
        = (Raises e, State h' (c ++ pre ++ [a]) k').
Proof.
  intros Hall Ha Hacc. eexists. unfold serial. unfold bind at 1.
  by rewrite (serial_loop_raises _ _ _ _ _ _ e vs h h').
Qed.

(** Lines 79-88 with a valid [n_jobs]. *)
Lemma pool_run function cfg sched rest (X : Type)
    (continue : list (future A V) → M A V X) h c k :
  0 < n_jobs cfg →
  ∃ c' k',
    bind (ThreadPoolExecutor (n_jobs cfg)) (λ _,
      bind (as_completed function cfg sched (submit <$> rest)) continue) (State h c k)
    = continue (finished function cfg rest) (State h c' k')
    ∧ c' ≡ₚ c ++ rest.
Proof.
  intros Hjobs.
  destruct (as_completed_run function cfg sched rest h c k) as (c' & k' & Hrun & Hperm).
  exists c', k'. split; [|done].
  unfold bind at 1, ThreadPoolExecutor.
  destruct (Z.leb_spec (n_jobs cfg) 0); [lia|]. simpl.
  unfold bind at 1. by rewrite Hrun.
Qed.

Lemma Forall2_returns function cfg l (g : A → V) :
  (∀ a, a ∈ l → apply_function function cfg a = Returns (g a)) →
  Forall2 (λ a v, apply_function function cfg a = Returns v) l (g <$> l).
Proof.
  intros Hg. apply Forall2_fmap_r, Forall_Forall2_diag, Forall_forall. auto.
Qed.

Lemma long_enough_le cfg it :
  front_num cfg ≤ Z.of_nat (length (elements_of it)) → long_enough cfg it.
Proof. destruct it; simpl; [done | lia]. Qed.

Lemma initial_entries_fresh cfg (h : gmap loc (list V)) :
  initial_value cfg = None → initial_entries cfg h = [].
Proof.
  intros Hini. unfold initial_entries.
  by rewrite (proj1 (not_elem_of_dom _ _) (output_of_fresh cfg h Hini)).
Qed.
(** ** The result is the map of the function, in input order *)

(** C1. When no call fails, with [n_jobs >= 1], [front_num <= len(iterables)],
    the built-in [append], no [initial_value] and [return_output], the call
    returns a new list that holds [function(x)] for every [x] of the input,
    in input order: the results of the warm-up first, then the others in
    the order of submission. This holds for every order of completion
    [sched] and every [n_jobs >= 1], so the serial branch and the pool give
    the same list; every element is called once. *)
Theorem parallel_map_maps function cfg sched it (g : A → V) s :
  1 ≤ n_jobs cfg →
  front_num cfg ≤ Z.of_nat (length (elements_of it)) →
  (∀ a, a ∈ elements_of it → apply_function function cfg a = Returns (g a)) →
  appends cfg →
  initial_value cfg = None →
  ∃ output s',
    parallel_map function cfg sched it s = (Returns (Some output), s')
    ∧ (output ∉ dom (heap s))
    ∧ heap s' = <[output := g <$> elements_of it]> (heap s)
    ∧ calls s' ≡ₚ (calls s ++ elements_of it).
Proof.
  intros Hjobs Hfront Hg Happ Hini. destruct s as [h c k].
  pose proof (warm_rest_inputs cfg it) as Hsplit.
  assert (Forall2 (λ a v, apply_function function cfg a = Returns v)
            (warm_inputs cfg it) (g <$> warm_inputs cfg it)) as Hwarm.
  { apply Forall2_returns. intros a Ha. apply Hg. rewrite <- Hsplit. set_solver. }
  assert (Forall2 (λ a v, apply_function function cfg a = Returns v)
            (rest_inputs cfg it) (g <$> rest_inputs cfg it)) as Hrest.
  { apply Forall2_returns. intros a Ha. apply Hg. rewrite <- Hsplit. set_solver. }
  set (r := output_of cfg h).
  set (h1 := alter (λ xs : list V, xs ++ (g <$> warm_inputs cfg it)) r (bound_heap cfg h)).
  set (h2 := alter (λ xs : list V, xs ++ (g <$> rest_inputs cfg it)) r h1).
  assert (h2 = <[r := g <$> elements_of it]> h) as Hh2.
  { unfold h2, h1, r. rewrite alter_app, alter_bound_heap.
    by rewrite initial_entries_fresh, <- fmap_app, Hsplit. }
  assert (accumulated cfg r (g <$> rest_inputs cfg it) h1 h2) as Hacc2
    by by apply accumulated_append.
  rewrite (parallel_map_after_warm_up _ _ _ _ (g <$> warm_inputs cfg it) h h1);
    [|by apply long_enough_le|done|by apply accumulated_append].
  fold r. simpl. exists r.
  destruct (n_jobs cfg =? 1) eqn:Hone.
  - destruct (serial_ok function cfg r _ _ h1 h2 (c ++ warm_inputs cfg it) k Hrest Hacc2)
      as [k' ->].
    destruct Happ as (-> & _). eexists. split_and!; [done| |done|].
    + by apply output_of_fresh.
    + simpl. by rewrite <- app_assoc, Hsplit.
  - destruct (pool_run function cfg sched (rest_inputs cfg it) _
                (λ futures,
                   if negb (return_output cfg) then ret None
                   else bind (harvest function cfg r futures) (λ _, ret (Some r)))
                h1 (c ++ warm_inputs cfg it) k) as (c' & k' & -> & Hperm); [lia|].
    pose proof Happ as (-> & _). simpl. unfold bind, harvest.
    destruct (harvest_loop_ok function cfg r
                (imap (λ i f, (i, f)) (finished function cfg (rest_inputs cfg it)))
                _ _ h1 h2 c' k' (enumerate_snd _) Hrest Hacc2) as [k'' ->].
    eexists. split_and!; [done| |done|].
    + by apply output_of_fresh.
    + simpl. by rewrite Hperm, <- app_assoc, Hsplit.
Qed.
(** ** A failure in the warm-up *)

(** C6. If the call fails on one of the first [front_num] elements, with the
    exception [e], [parallel_map] raises [e], for every [n_jobs] and every
    choice of [raise_errors] and [include_errors]. The function has been
    called on the elements up to the failing one and on no other: nothing
    was submitted to a pool. Neither the store nor the console has changed:
    no output list exists, and nothing is returned. *)
Theorem warm_up_failure_propagates function cfg sched it pre a post e s :
  take (Z.to_nat (front_num cfg)) (elements_of it) = pre ++ a :: post →
  Forall (succeeds function cfg) pre →
  apply_function function cfg a = Raises e →
  parallel_map function cfg sched it s = (Raises e, log_calls (pre ++ [a]) s).
Proof.
  intros Htake Hpre Ha. unfold parallel_map. unfold bind at 1.
  by rewrite (warm_up_raises _ _ _ pre a post e).
Qed.

(** ** Without [return_output] *)

Lemma Forall_succeeds function cfg l :
  Forall (succeeds function cfg) l →
  ∃ vs, Forall2 (λ a v, apply_function function cfg a = Returns v) l vs.
Proof.
  induction 1 as [|a l [v Ha] _ [vs IH]]; [by exists []|].
  exists (v :: vs). by constructor.
Qed.

(** Lines 79-92 without [return_output]. *)
Lemma pool_without_return_output function cfg sched it s :
  1 < n_jobs cfg →
  return_output cfg = false →
  long_enough cfg it →
  Forall (succeeds function cfg) (warm_inputs cfg it) →
  ∃ s',
    parallel_map function cfg sched it s = (Returns None, s')
    ∧ heap s' = bound_heap cfg (heap s)
    ∧ calls s' ≡ₚ (calls s ++ elements_of it).
Proof.
  intros Hjobs Hret Hlen Hwarm. destruct s as [h c k].
  destruct (Forall_succeeds _ _ _ Hwarm) as [vs Hvs].
  rewrite (parallel_map_after_warm_up _ _ _ _ vs h (bound_heap cfg h));
    [|done|done|by apply accumulated_skip].
  destruct (Z.eqb_spec (n_jobs cfg) 1) as [|_]; [lia|].
  destruct (pool_run function cfg sched (rest_inputs cfg it) _
              (λ futures,
                 if negb (return_output cfg) then ret None
                 else bind (harvest function cfg (output_of cfg h) futures)
                        (λ _, ret (Some (output_of cfg h))))
              (bound_heap cfg h) (c ++ warm_inputs cfg it) k)
    as (c' & k' & -> & Hperm); [lia|].
  rewrite Hret. simpl. eexists. split_and!; [done..|].
  simpl. by rewrite Hperm, <- app_assoc, warm_rest_inputs.
Qed.

(** C10. With [return_output = False] and [n_jobs > 1], once the warm-up
    has succeeded the call returns [None], whatever the tasks of the pool
    do and whatever [raise_errors] and [include_errors] are: the futures
    are never asked for their result. Every element has been called once,
    and the store holds nothing new but the (empty, unused) output list. *)
Theorem unharvested_failures_are_silent function cfg sched it s :
  1 < n_jobs cfg →
  return_output cfg = false →
  long_enough cfg it →
  Forall (succeeds function cfg) (warm_inputs cfg it) →
  ∃ s',
    parallel_map function cfg sched it s = (Returns None, s')
    ∧ heap s' = bound_heap cfg (heap s)
    ∧ calls s' ≡ₚ (calls s ++ elements_of it).
Proof. apply pool_without_return_output. Qed.

Lemma comprehension_returns_inv function cfg l vs s s' :
  comprehension (call function cfg) l s = (Returns vs, s') →
  Forall2 (λ a v, apply_function function cfg a = Returns v) l vs
  ∧ s' = log_calls l s.
Proof.
  revert vs s s'. induction l as [|a l IH]; intros vs s s' Hrun; simpl in Hrun.
  - unfold ret in Hrun. simplify_eq. split; [constructor | by rewrite log_calls_nil].
  - unfold bind at 1, call at 1 in Hrun.
    destruct (apply_function function cfg a) as [v|e] eqn:Ha; [|done].
    unfold bind at 1 in Hrun.
    destruct (comprehension _ l _) as [[vs'|e] s1] eqn:Hl; [|done].
    unfold ret in Hrun. simplify_eq. destruct (IH _ _ _ Hl) as [Hall ->].
    split; [by constructor | by rewrite log_call_calls, log_calls_app].
Qed.

Lemma front_of_iter_returns_inv function cfg (n : nat) l front fr rest s s' :
  front_of_iter function cfg n l front s = (Returns (fr, rest), s') →
  (n ≤ length l)%nat
  ∧ (∃ vs, fr = front ++ vs
           ∧ Forall2 (λ a v, apply_function function cfg a = Returns v) (take n l) vs)
  ∧ rest = drop n l
  ∧ s' = log_calls (take n l) s.
Proof.
  revert l front s. induction n as [|n IH]; intros l front s Hrun; simpl in Hrun.
  - unfold ret in Hrun. simplify_eq. split_and!; [lia| |done|].
    + exists []. by rewrite app_nil_r.
    + by rewrite log_calls_nil.
  - destruct l as [|a l]; [done|].
    unfold bind at 1, call at 1 in Hrun.
    destruct (apply_function function cfg a) as [v|e] eqn:Ha; [|done].
    destruct (IH _ _ _ Hrun) as (Hn & (vs & -> & Hall) & -> & ->).
    split_and!; [simpl; lia| |done|].
    + exists (v :: vs). split; [by rewrite <- app_assoc | by constructor].
    + by rewrite log_call_calls, log_calls_app.
Qed.

Lemma warm_up_returns_inv function cfg it front rest s s' :
  warm_up function cfg it s = (Returns (front, rest), s') →
  long_enough cfg it
  ∧ Forall2 (λ a v, apply_function function cfg a = Returns v) (warm_inputs cfg it) front
  ∧ rest = rest_inputs cfg it
  ∧ s' = log_calls (warm_inputs cfg it) s.
Proof.
  destruct it as [l|l]; simpl; intros Hrun.
  - unfold bind at 1 in Hrun.
    destruct (comprehension _ _ _) as [[vs|e] s1] eqn:Hl; [|done].
    unfold ret in Hrun. simplify_eq.
    by destruct (comprehension_returns_inv _ _ _ _ _ _ Hl) as [Hall ->].
  - destruct (front_of_iter_returns_inv _ _ _ _ _ _ _ _ _ Hrun)
      as (Hn & (vs & -> & Hall) & -> & ->).
    done.
Qed.

Lemma comprehension_heap function cfg l s :
  heap (comprehension (call function cfg) l s).2 = heap s.
Proof.
  revert s. induction l as [|a l IH]; intros s; simpl; [done|].
  unfold bind at 1, call at 1. destruct (apply_function function cfg a); [|done].
  unfold bind at 1. specialize (IH (log_call a s)).
  by destruct (comprehension _ l _) as [[?|?] ?].
Qed.

Lemma front_of_iter_heap function cfg (n : nat) l front s :
  heap (front_of_iter function cfg n l front s).2 = heap s.
Proof.
  revert l front s. induction n as [|n IH]; intros l front s; simpl; [done|].
  destruct l as [|a l]; [done|].
  unfold bind at 1, call at 1. destruct (apply_function function cfg a); [|done].
  by rewrite IH.
Qed.

Lemma warm_up_heap function cfg it s :
  heap (warm_up function cfg it s).2 = heap s.
Proof.
  destruct it as [l|l]; simpl; [|apply front_of_iter_heap].
  unfold bind at 1. pose proof (comprehension_heap function cfg (slice_to (front_num cfg) l) s).
  by destruct (comprehension _ _ _) as [[?|?] ?].
Qed.

Lemma for_each_add_heap cfg r vs s :
  return_output cfg = false →
  for_each vs (λ x, _add_func cfg x r) s = (Returns (), s).
Proof.
  intros Hret. destruct s as [h c k].
  by apply for_each_add, accumulated_skip.
Qed.

Lemma serial_body_run function cfg r a s :
  bind (modify (log_tick SerialBar)) (λ _,
    bind (call function cfg a) (λ x, _add_func cfg x r)) s
  = match apply_function function cfg a with
    | Returns v => _add_func cfg v r (log_call a (log_tick SerialBar s))
    | Raises e => (Raises e, log_call a (log_tick SerialBar s))
    end.
Proof. unfold bind, modify, call. simpl. by destruct (apply_function function cfg a). Qed.

Lemma serial_loop_returns_inv function cfg r rest s s' :
  return_output cfg = false →
  for_each rest (λ a,
    bind (modify (log_tick SerialBar)) (λ _,
      bind (call function cfg a) (λ x, _add_func cfg x r))) s = (Returns (), s') →
  heap s' = heap s ∧ calls s' = calls s ++ rest.
Proof.
  intros Hret. revert s. induction rest as [|a rest IH]; intros s Hrun.
  - simpl in Hrun. unfold ret in Hrun. simplify_eq. by rewrite app_nil_r.
  - cbn [for_each] in Hrun. unfold bind at 1 in Hrun.
    rewrite serial_body_run in Hrun.
    destruct (apply_function function cfg a) as [v|e]; [|done].
    rewrite _add_func_skip in Hrun by done.
    destruct (IH _ Hrun) as [-> ->]. simpl. by rewrite <- app_assoc.
Qed.

(** ** The progress bars *)

Lemma agree_refl s : agree s s.
Proof. by split. Qed.

Lemma sim_ret {X} (x : X) : sim (A:=A) (V:=V) (ret x) (ret x).
Proof. by intros s1 s2 Hs. Qed.

Lemma sim_raise {X} e : sim (A:=A) (V:=V) (X:=X) (raise e) (raise e).
Proof. by intros s1 s2 Hs. Qed.

Lemma sim_bind {X Y} (m1 m2 : M A V X) (k1 k2 : X → M A V Y) :
  sim m1 m2 → (∀ x, sim (k1 x) (k2 x)) → sim (bind m1 k1) (bind m2 k2).
Proof.
  intros Hm Hk s1 s2 Hs. unfold bind. destruct (Hm s1 s2 Hs) as [Ho Hs'].
  destruct (m1 s1) as [[x1|e1] s1'], (m2 s2) as [[x2|e2] s2']; simplify_eq/=.
  - by apply Hk.
  - done.
Qed.

Lemma sim_try_except {X} (m1 m2 : M A V X) (h1 h2 : exn → M A V X) :
  sim m1 m2 → (∀ e, sim (h1 e) (h2 e)) → sim (try_except m1 h1) (try_except m2 h2).
Proof.
  intros Hm Hh s1 s2 Hs. unfold try_except. destruct (Hm s1 s2 Hs) as [Ho Hs'].
  destruct (m1 s1) as [[x1|e1] s1'], (m2 s2) as [[x2|e2] s2']; simplify_eq/=.
  - done.
  - by apply Hh.
Qed.

Lemma sim_for_each {X} (xs : list X) (b1 b2 : X → M A V ()) :
  (∀ x, sim (b1 x) (b2 x)) → sim (for_each xs b1) (for_each xs b2).
Proof.
  intros Hb. induction xs as [|x xs IH]; simpl.
  - apply sim_ret.
  - apply sim_bind; [apply Hb | by intros _].
Qed.

Lemma sim_comprehension {X Y} (f1 f2 : X → M A V Y) (xs : list X) :
  (∀ x, sim (f1 x) (f2 x)) → sim (comprehension f1 xs) (comprehension f2 xs).
Proof.
  intros Hf. induction xs as [|x xs IH]; simpl.
  - apply sim_ret.
  - apply sim_bind; [apply Hf|]. intros y.
    apply sim_bind; [apply IH|]. intros ys. apply sim_ret.
Qed.

(** A progress bar may move in one run and not in the other. *)
Lemma sim_tick (t1 t2 : list tick) :
  sim (A:=A) (V:=V)
    (modify (λ s, State (heap s) (calls s) (console s ++ t1)))
    (modify (λ s, State (heap s) (calls s) (console s ++ t2))).
Proof. by intros s1 s2 Hs. Qed.

Lemma sim_log_tick t : sim (A:=A) (V:=V) (modify (log_tick t)) (modify (log_tick t)).
Proof. by intros s1 s2 Hs. Qed.

Lemma sim_call function cfg a : sim (call function cfg a) (call function cfg a).
Proof.
  intros s1 s2 [Hh Hc]. unfold call, log_call, agree. simpl.
  split_and!; [done..|]. by rewrite Hc.
Qed.

Lemma sim_add_func cfg (x : V) r :
  sim (A:=A) (_add_func cfg x r) (_add_func cfg x r).
Proof.
  intros s1 s2 [Hh Hc]. unfold _add_func.
  destruct (return_output cfg); simpl; [|done].
  destruct (add_func cfg) as [g|].
  - rewrite Hh. by destruct (g x r (heap s2)).
  - unfold list_extend, list_append, modify, set_heap, agree.
    destruct (extend_result cfg); [destruct (py_iter x)|]; simpl; by rewrite ?Hh.
Qed.

Lemma sim_front_of_iter function cfg (n : nat) l front :
  sim (front_of_iter function cfg n l front) (front_of_iter function cfg n l front).
Proof.
  revert l front. induction n as [|n IH]; intros l front; simpl.
  - apply sim_ret.
  - destruct l as [|a l]; [apply sim_raise|].
    apply sim_bind; [apply sim_call|]. intros x. apply IH.
Qed.

Lemma sim_warm_up function cfg it :
  sim (warm_up function cfg it) (warm_up function cfg it).
Proof.
  destruct it as [l|l]; simpl; [|apply sim_front_of_iter].
  apply sim_bind; [|intros; apply sim_ret].
  apply sim_comprehension. intros a. apply sim_call.
Qed.

Lemma sim_initial_value_or_list cfg :
  sim (A:=A) (initial_value_or_list cfg) (initial_value_or_list cfg).
Proof.
  intros s1 s2 [Hh Hc]. unfold initial_value_or_list, agree. rewrite Hh.
  destruct (truthy (heap s2) (initial_value cfg)); simpl; by rewrite ?Hh.
Qed.

Lemma sim_serial function cfg r rest :
  sim (serial function cfg r rest) (serial function cfg r rest).
Proof.
  unfold serial. apply sim_bind; [|intros; apply sim_ret].
  apply sim_for_each. intros a.
  apply sim_bind; [apply sim_log_tick|]. intros _.
  apply sim_bind; [apply sim_call|]. intros x. apply sim_add_func.
Qed.

Lemma sim_result function cfg (f : future A V) :
  sim (result function cfg f) (result function cfg f).
Proof.
  destruct f as [a [[x|e]|]]; simpl;
    [apply sim_ret | apply sim_raise | apply sim_call].
Qed.

Lemma sim_harvest function cfg r (futures : list (future A V)) :
  sim (harvest function cfg r futures) (harvest function cfg r futures).
Proof.
  unfold harvest. apply sim_for_each. intros [i f].
  apply sim_bind; [apply sim_log_tick|]. intros _.
  apply sim_try_except.
  - apply sim_bind; [apply sim_result|]. intros x. apply sim_add_func.
  - intros e. destruct (raise_errors cfg); [apply sim_raise|].
    destruct (include_errors cfg); [apply sim_add_func | apply sim_ret].
Qed.

(** The pool leaves the same futures whatever the order of completion and
    whether or not the bar of line 85 is shown. *)
Lemma sim_as_completed function cfg (b1 b2 : bool) sched1 sched2 rest :
  sim (as_completed function (with_progress b1 cfg) sched1 (submit <$> rest))
      (as_completed function (with_progress b2 cfg) sched2 (submit <$> rest)).
Proof.
  intros [h1 c1 k1] [h2 c2 k2] [Hh Hc]. simpl in Hh, Hc. subst h2.
  destruct (as_completed_run function (with_progress b1 cfg) sched1 rest h1 c1 k1)
    as (c1' & k1' & -> & Hc1).
  destruct (as_completed_run function (with_progress b2 cfg) sched2 rest h1 c2 k2)
    as (c2' & k2' & -> & Hc2).
  unfold agree. simpl. split_and!; [done..|]. by rewrite Hc1, Hc2, Hc.
Qed.

(** C9. Two runs that differ only in [show_progress_bar] (and in the order
    in which the pool completes the tasks) end the same way: both return
    the same object, the output list or [None], or both raise the same
    exception; they leave the same store, so the same entries in the output
    list, and have made the same calls. *)
Theorem show_progress_bar_is_cosmetic function cfg (b1 b2 : bool) sched1 sched2 it s :
  let run1 := parallel_map function (with_progress b1 cfg) sched1 it s in
  let run2 := parallel_map function (with_progress b2 cfg) sched2 it s in
  run1.1 = run2.1 ∧ heap run1.2 = heap run2.2 ∧ calls run1.2 ≡ₚ calls run2.2.
Proof.
  cut (sim (parallel_map function (with_progress b1 cfg) sched1 it)
           (parallel_map function (with_progress b2 cfg) sched2 it)).
  { intros Hsim. destruct (Hsim s s (agree_refl s)) as (Ho & Hh & Hc). by simpl. }
  unfold parallel_map.
  apply sim_bind; [exact (sim_warm_up function (with_progress b1 cfg) it)|].
  intros [front rest].
  apply sim_bind; [exact (sim_initial_value_or_list (with_progress b1 cfg))|].
  intros output.
  apply sim_bind.
  { apply sim_for_each. intros x. exact (sim_add_func (with_progress b1 cfg) x output). }
  intros _. change (n_jobs (with_progress b2 cfg)) with (n_jobs (with_progress b1 cfg)).
  destruct (n_jobs (with_progress b1 cfg) =? 1).
  { exact (sim_serial function (with_progress b1 cfg) output rest). }
  apply sim_bind.
  { unfold ThreadPoolExecutor. simpl.
    destruct (n_jobs cfg <=? 0); [apply sim_raise | apply sim_ret]. }
  intros _. apply sim_bind; [apply sim_as_completed|].
  intros futures. simpl. destruct (return_output cfg); simpl; [|apply sim_ret].
  apply sim_bind; [|intros; apply sim_ret].
  exact (sim_harvest function (with_progress b1 cfg) output futures).
Qed.

(** ** [raise_errors] *)

Lemma harvest_loop_raises function cfg r (ifs : list (nat * future A V))
    pre a post e vs h h' c k :
  ifs.*2 = finished function cfg (pre ++ a :: post) →
  Forall2 (λ a v, apply_function function cfg a = Returns v) pre vs →
  apply_function function cfg a = Raises e →
  raise_errors cfg = true →
  accumulated cfg r vs h h' →
  ∃ k', for_each ifs (harvest_body function cfg r) (State h c k)
        = (Raises e, State h' c k').
Proof.
  intros Hifs Hpre Ha Hraise Hacc. unfold finished in Hifs. rewrite fmap_app in Hifs.
  apply fmap_app_inv in Hifs as (ifs1 & ifs2 & Hifs1 & Hifs2 & ->).
  symmetry in Hifs2. apply fmap_cons_inv in Hifs2 as ([i f] & ifs3 & Hf & _ & ->).
  simpl in Hf. subst f.
  destruct (harvest_loop_ok function cfg r ifs1 pre vs h h' c k) as [k1 Hk1];
    [done..|].
  eexists. rewrite for_each_app. unfold bind at 1. rewrite Hk1.
  cbn [for_each]. unfold bind at 1.
  by rewrite (harvest_step_raises _ _ _ _ _ e).
Qed.

(** X16. Where [raise_errors] is looked at, that is with a valid [n_jobs]
    and either [return_output] or [n_jobs == 1]: when the warm-up succeeds and
    [_add_func] does not raise on the earlier results, [parallel_map]
    raises the exception of the first element, in submission order, on
    which the call fails, and returns nothing. Under the built-in [append]
    the output list then holds its initial entries and the results before
    the failure, none of the later ones; the caller can reach it only when
    it is the caller's own [initial_value]. *)
Theorem raise_errors_raises_first_failure function cfg sched it pre a post e vs1 vs2 s :
  raise_errors cfg = true →
  1 ≤ n_jobs cfg →
  return_output cfg = true ∨ n_jobs cfg = 1 →
  long_enough cfg it →
  Forall2 (λ a v, apply_function function cfg a = Returns v) (warm_inputs cfg it) vs1 →
  rest_inputs cfg it = pre ++ a :: post →
  Forall2 (λ a v, apply_function function cfg a = Returns v) pre vs2 →
  apply_function function cfg a = Raises e →
  Forall (accumulates cfg) (vs1 ++ vs2) →
  ∃ s',
    parallel_map function cfg sched it s = (Raises e, s')
    ∧ (appends cfg →
       heap s' = <[output_of cfg (heap s) :=
                     initial_entries cfg (heap s) ++ vs1 ++ vs2]> (heap s)
       ∧ (initial_value cfg = None → output_of cfg (heap s) ∉ dom (heap s))).
Proof.
  intros Hraise Hjobs Hpath Hlen Hwarm Hrest Hpre Ha Haccs. destruct s as [h c k].
  apply Forall_app in Haccs as [Haccs1 Haccs2].
  set (r := output_of cfg h).
  destruct (accumulated_total cfg r vs1 (bound_heap cfg h) Haccs1) as [h1 Hacc1].
  destruct (accumulated_total cfg r vs2 h1 Haccs2) as [h2 Hacc2].
  assert (appends cfg →
          h2 = <[r := initial_entries cfg h ++ vs1 ++ vs2]> h
          ∧ (initial_value cfg = None → r ∉ dom h)) as Hheap.
  { intros Happ. split; [|apply output_of_fresh].
    rewrite (accumulated_fun _ _ _ _ _ _ Hacc2 (accumulated_append cfg r vs2 h1 Happ)).
    rewrite (accumulated_fun _ _ _ _ _ _ Hacc1
               (accumulated_append cfg r vs1 (bound_heap cfg h) Happ)).
    unfold r. by rewrite alter_app, alter_bound_heap. }
  rewrite (parallel_map_after_warm_up _ _ _ _ vs1 h h1) by done.
  fold r. rewrite Hrest. simpl.
  destruct (Z.eqb_spec (n_jobs cfg) 1) as [Hone|Hone].
  - destruct (serial_raises function cfg r pre a post e vs2 h1 h2
                (c ++ warm_inputs cfg it) k Hpre Ha Hacc2) as [k' ->].
    by eexists.
  - destruct Hpath as [Hret|]; [|done].
    destruct (pool_run function cfg sched (pre ++ a :: post) _
                (λ futures,
                   if negb (return_output cfg) then ret None
                   else bind (harvest function cfg r futures) (λ _, ret (Some r)))
                h1 (c ++ warm_inputs cfg it) k) as (c' & k' & -> & Hperm); [lia|].
    rewrite Hret. simpl. unfold bind, harvest.
    destruct (harvest_loop_raises function cfg r
                (imap (λ i f, (i, f)) (finished function cfg (pre ++ a :: post)))
                pre a post e vs2 h1 h2 c' k' (enumerate_snd _) Hpre Ha Hraise Hacc2)
      as [k'' ->].
    by eexists.
Qed.

(** ** Invalid configurations *)

Lemma slice_bound_effective (k : Z) (len : nat) :
  slice_bound (Z.max 0 (if k <? 0 then Z.of_nat len + k else k)) len = slice_bound k len.
Proof. unfold slice_bound. repeat case_match; lia. Qed.

Lemma warm_up_effective function cfg it :
  warm_up function (with_front_num (effective_front_num cfg it) cfg) it
  = warm_up function cfg it.
Proof.
  destruct it as [l|l]; unfold warm_up, slice_to, slice_from; simpl.
  - by rewrite slice_bound_effective.
  - by replace (Z.to_nat (Z.max 0 (front_num cfg))) with (Z.to_nat (front_num cfg)) by lia.
Qed.

(** C8, as the code has it. Nothing checks the configuration. With
    [n_jobs < 1] the warm-up runs first, calling the function on the
    warm-up elements; only then, if the warm-up succeeded, does the
    constructor of the pool raise [ValueError], before any other element
    is called. A negative [front_num] raises nothing: the call is the
    call with the count of warm-up elements the slice (for a list) or
    [range] (for an iterator) gives. *)
Theorem configuration_is_not_checked function cfg sched it s :
  (n_jobs cfg < 1 →
   long_enough cfg it →
   ∀ vs,
     Forall2 (λ a v, apply_function function cfg a = Returns v) (warm_inputs cfg it) vs →
     Forall (accumulates cfg) vs →
     ∃ s', parallel_map function cfg sched it s = (Raises ValueError, s')
           ∧ calls s' = calls s ++ warm_inputs cfg it)
  ∧ parallel_map function cfg sched it s
    = parallel_map function (with_front_num (effective_front_num cfg it) cfg) sched it s.
Proof.
  split.
  - intros Hjobs Hlen vs Hwarm Haccs. destruct s as [h c k].
    destruct (accumulated_total cfg (output_of cfg h) vs (bound_heap cfg h) Haccs)
      as [h1 Hacc].
    rewrite (parallel_map_after_warm_up _ _ _ _ vs h h1) by done.
    destruct (Z.eqb_spec (n_jobs cfg) 1) as [|_]; [lia|].
    unfold bind at 1, ThreadPoolExecutor.
    destruct (Z.leb_spec (n_jobs cfg) 0); [|lia].
    by eexists.
  - unfold parallel_map. unfold bind at 1 3.
    by rewrite warm_up_effective.
Qed.

(** ** The error policies on the pool *)

Lemma harvested_include cfg (os : list (outcome V)) :
  raise_errors cfg = false → include_errors cfg = true →
  harvested cfg os = (entry_of <$> os, None).
Proof.
  intros Hraise Hinclude. induction os as [|[v|e] os IH]; simpl; [done|..].
  - by rewrite IH.
  - by rewrite Hraise, Hinclude, IH.
Qed.

Lemma harvested_suppress cfg (os : list (outcome V)) :
  raise_errors cfg = false → include_errors cfg = false →
  harvested cfg os = (omap value_of os, None).
Proof.
  intros Hraise Hinclude. induction os as [|[v|e] os IH]; simpl; [done|..].
  - by rewrite IH.
  - by rewrite Hraise, Hinclude, IH.
Qed.

Lemma length_values (os : list (outcome V)) :
  (length (omap value_of os) + length (filter (λ o, failed o) os) = length os)%nat.
Proof.
  unfold omap. induction os as [|[v|e] os IH]; [done|..].
  - rewrite filter_cons_False by (simpl; auto). simpl in *. lia.
  - rewrite filter_cons_True by done. simpl in *. lia.
Qed.

Lemma values_fmap (f : A → outcome V) l :
  omap value_of (f <$> l) = omap (value_of ∘ f) l.
Proof.
  induction l as [|a l IH]; [done|]. simpl. destruct (f a); simpl; by f_equal.
Qed.

Lemma failures_fmap (f : A → outcome V) l :
  length (filter (λ o, failed o) (f <$> l)) = length (filter (λ a, failed (f a)) l).
Proof.
  induction l as [|a l IH]; [done|]. rewrite fmap_cons.
  destruct (failed (f a)) eqn:Hf.
  - rewrite !filter_cons_True by (simpl; by rewrite Hf). simpl. by f_equal.
  - rewrite !filter_cons_False by (simpl; rewrite Hf; auto). done.
Qed.

(** Lines 79-103 under the built-in [append], without warm-up and without
    [initial_value]. *)
Lemma pool_harvests function cfg sched it s :
  appends cfg → 1 < n_jobs cfg → front_num cfg = 0 → initial_value cfg = None →
  ∃ s',
    parallel_map function cfg sched it s
    = (match (harvested cfg (apply_function function cfg <$> elements_of it)).2 with
       | None => Returns (Some (output_of cfg (heap s)))
       | Some e => Raises e
       end, s')
    ∧ heap s' = <[output_of cfg (heap s) :=
                    (harvested cfg (apply_function function cfg <$> elements_of it)).1]>
                  (heap s).
Proof.
  intros Happ Hjobs Hfront Hini. destruct s as [h c k].
  assert (warm_inputs cfg it = [] ∧ rest_inputs cfg it = elements_of it) as [Hwarm Hrest].
  { destruct it; unfold warm_inputs, rest_inputs, slice_to, slice_from, slice_bound;
      by rewrite Hfront. }
  rewrite (parallel_map_after_warm_up _ _ _ _ [] h (bound_heap cfg h));
    [|apply long_enough_le; rewrite Hfront; lia|rewrite Hwarm; constructor|constructor].
  destruct (Z.eqb_spec (n_jobs cfg) 1) as [|_]; [lia|].
  rewrite Hrest.
  destruct (pool_run function cfg sched (elements_of it) _
              (λ futures,
                 if negb (return_output cfg) then ret None
                 else bind (harvest function cfg (output_of cfg h) futures)
                        (λ _, ret (Some (output_of cfg h))))
              (bound_heap cfg h) (c ++ warm_inputs cfg it) k)
    as (c' & k' & -> & _); [lia|].
  pose proof Happ as (-> & _). simpl. unfold bind, harvest.
  destruct (harvest_loop_appends function cfg (output_of cfg h)
              (imap (λ i f, (i, f)) (finished function cfg (elements_of it)))
              (elements_of it) (bound_heap cfg h) c' k' Happ (enumerate_snd _))
    as [k'' ->].
  rewrite alter_bound_heap, initial_entries_fresh by done. simpl.
  destruct (harvested cfg _) as [vs [e|]]; simpl; by eexists.
Qed.

(** On the pool, [include_errors] leaves one entry for every element: the
    result of the call, or the exception it raised, at the index of the
    element. *)
Lemma pool_includes_errors function cfg sched it s :
  appends cfg → 1 < n_jobs cfg → front_num cfg = 0 → initial_value cfg = None →
  raise_errors cfg = false → include_errors cfg = true →
  ∃ s',
    parallel_map function cfg sched it s = (Returns (Some (output_of cfg (heap s))), s')
    ∧ heap s' !! output_of cfg (heap s)
      = Some (entry_of ∘ apply_function function cfg <$> elements_of it).
Proof.
  intros Happ Hjobs Hfront Hini Hraise Hinclude.
  destruct (pool_harvests function cfg sched it s) as (s' & Hrun & Hheap); [done..|].
  rewrite harvested_include in Hrun, Hheap by done. simpl in Hrun, Hheap.
  exists s'. split; [done|]. by rewrite Hheap, lookup_insert_eq, list_fmap_compose.
Qed.

(** On the pool, without [include_errors], the output holds the results of
    the calls that returned, in input order: as many entries as elements,
    less the calls that failed. *)
Lemma pool_suppresses_errors function cfg sched it s :
  appends cfg → 1 < n_jobs cfg → front_num cfg = 0 → initial_value cfg = None →
  raise_errors cfg = false → include_errors cfg = false →
  ∃ s' vs,
    parallel_map function cfg sched it s = (Returns (Some (output_of cfg (heap s))), s')
    ∧ heap s' !! output_of cfg (heap s) = Some vs
    ∧ vs = omap (value_of ∘ apply_function function cfg) (elements_of it)
    ∧ (length vs
       + length (filter (λ a, failed (apply_function function cfg a)) (elements_of it))
       = length (elements_of it))%nat.
Proof.
  intros Happ Hjobs Hfront Hini Hraise Hinclude.
  destruct (pool_harvests function cfg sched it s) as (s' & Hrun & Hheap); [done..|].
  rewrite harvested_suppress in Hrun, Hheap by done. simpl in Hrun, Hheap.
  exists s', (omap value_of (apply_function function cfg <$> elements_of it)).
  split_and!; [done|by rewrite Hheap, lookup_insert_eq|..].
  - apply values_fmap.
  - pose proof (length_values (apply_function function cfg <$> elements_of it)) as Hlen.
    by rewrite length_fmap, failures_fmap in Hlen.
Qed.

(** * More of [parallel_map] *)

(** ** The serial branch *)

(** X1. With [n_jobs == 1] the exception of the first call that fails after
    the warm-up is raised to the caller, whatever [raise_errors] and
    [include_errors] are (lines 73-75 have no [try]); the function has been
    called on the elements up to this one, in input order, and on none of
    the later ones. *)
Theorem serial_branch_raises function cfg sched it pre a post e vs1 vs2 s :
  n_jobs cfg = 1 →
  long_enough cfg it →
  Forall2 (λ a v, apply_function function cfg a = Returns v) (warm_inputs cfg it) vs1 →
  rest_inputs cfg it = pre ++ a :: post →
  Forall2 (λ a v, apply_function function cfg a = Returns v) pre vs2 →
  apply_function function cfg a = Raises e →
  Forall (accumulates cfg) (vs1 ++ vs2) →
  ∃ s',
    parallel_map function cfg sched it s = (Raises e, s')
    ∧ calls s' = calls s ++ warm_inputs cfg it ++ pre ++ [a].
Proof.
  intros Hone Hlen Hwarm Hrest Hpre Ha Haccs. destruct s as [h c k].
  apply Forall_app in Haccs as [Haccs1 Haccs2].
  destruct (accumulated_total cfg (output_of cfg h) vs1 (bound_heap cfg h) Haccs1)
    as [h1 Hacc1].
  destruct (accumulated_total cfg (output_of cfg h) vs2 h1 Haccs2) as [h2 Hacc2].
  rewrite (parallel_map_after_warm_up _ _ _ _ vs1 h h1) by done.
  rewrite (proj2 (Z.eqb_eq _ _) Hone), Hrest.
  destruct (serial_raises function cfg (output_of cfg h) pre a post e vs2 h1 h2
              (c ++ warm_inputs cfg it) k Hpre Ha Hacc2) as [k' ->].
  eexists. split; [done|]. simpl. by rewrite <- app_assoc.
Qed.

(** X2. With [n_jobs == 1], when no call fails and nothing fails in
    [_add_func], the function is called on the elements in input order, and
    the bar of line 73 moves once for every element after the warm-up,
    whatever [show_progress_bar] is: [tqdm(iterables)] is not given
    [disable]. *)
Theorem serial_branch_runs_in_order function cfg sched it vs1 vs2 s :
  n_jobs cfg = 1 →
  long_enough cfg it →
  Forall2 (λ a v, apply_function function cfg a = Returns v) (warm_inputs cfg it) vs1 →
  Forall2 (λ a v, apply_function function cfg a = Returns v) (rest_inputs cfg it) vs2 →
  Forall (accumulates cfg) (vs1 ++ vs2) →
  ∃ s',
    parallel_map function cfg sched it s
    = (Returns (if return_output cfg then Some (output_of cfg (heap s)) else None), s')
    ∧ calls s' = calls s ++ elements_of it
    ∧ console s' = console s ++ replicate (length (rest_inputs cfg it)) SerialBar.
Proof.
  intros Hone Hlen Hwarm Hrest Haccs. destruct s as [h c k].
  apply Forall_app in Haccs as [Haccs1 Haccs2].
  destruct (accumulated_total cfg (output_of cfg h) vs1 (bound_heap cfg h) Haccs1)
    as [h1 Hacc1].
  destruct (accumulated_total cfg (output_of cfg h) vs2 h1 Haccs2) as [h2 Hacc2].
  rewrite (parallel_map_after_warm_up _ _ _ _ vs1 h h1) by done.
  rewrite (proj2 (Z.eqb_eq _ _) Hone).
  unfold serial. unfold bind at 1.
  rewrite (serial_loop_ok _ _ _ _ vs2 h1 h2) by done.
  eexists. split_and!; [done| |done].
  simpl. by rewrite <- app_assoc, warm_rest_inputs.
Qed.

(** ** Flags that are not looked at *)

(** X3. With [raise_errors], [include_errors] is never looked at: the call
    is the same call, to the last state, with either value. *)
Theorem raise_errors_overrides_include_errors function cfg (b : bool) sched it s :
  raise_errors cfg = true →
  parallel_map function (with_include_errors b cfg) sched it s
  = parallel_map function cfg sched it s.
Proof.
  intros Hraise. destruct cfg. simpl in Hraise. subst. reflexivity.
Qed.

(** X4. Without [return_output], [_add_func] returns at once (lines 56-57):
    a custom [add_func] is never called and [extend_result] is never looked
    at. The call is the same call, to the last state, whatever the two
    are. *)
Theorem accumulator_unused_without_return_output function cfg extends add sched it s :
  return_output cfg = false →
  parallel_map function (with_accumulator extends add cfg) sched it s
  = parallel_map function cfg sched it s.
Proof.
  intros Hret. destruct cfg. simpl in Hret. subst. reflexivity.
Qed.

(** ** A warm-up longer than the input *)

Lemma front_of_iter_exhausted function cfg (n : nat) l front s :
  (length l < n)%nat →
  Forall (succeeds function cfg) l →
  front_of_iter function cfg n l front s = (Raises StopIteration, log_calls l s).
Proof.
  revert l front s. induction n as [|n IH]; intros l front s Hn Hall; [lia|].
  destruct l as [|a l]; simpl.
  - by rewrite log_calls_nil.
  - inversion Hall as [|? ? [v Ha] Hall']; subst.
    unfold bind, call at 1. rewrite Ha.
    rewrite IH by (simpl in Hn; lia || done).
    by rewrite log_call_calls, log_calls_app.
Qed.

(** X5. An iterator that yields fewer than [front_num] elements: when the
    calls on all of them succeed, [next] raises [StopIteration] out of
    [parallel_map] (lines 49-50), for every [n_jobs] and every policy.
    Nothing is returned, the results are lost, and no list was made. *)
Theorem exhausted_iterator_raises function cfg sched l s :
  Z.of_nat (length l) < front_num cfg →
  Forall (succeeds function cfg) l →
  parallel_map function cfg sched (PyIter l) s
  = (Raises StopIteration, log_calls l s).
Proof.
  intros Hshort Hall. unfold parallel_map. unfold bind at 1. simpl.
  by rewrite front_of_iter_exhausted by (lia || done).
Qed.

Lemma complete_all_nil function cfg (order : list nat) s :
  complete_all function cfg order [] s = (Returns [], s).
Proof.
  revert s. induction order as [|i order IH]; intros s; [done|].
  simpl. unfold bind, complete. simpl. apply IH.
Qed.

(** X6. A list of at most [front_num] elements is all warm-up (the slice of
    line 45 stops at the end of the list, where the iterator of X5 raises):
    when no call fails, under the built-in [append] and without
    [initial_value], the calls are made in input order, the new list holds
    the results in this order, and no progress bar has moved. The empty
    list gives a new empty list. *)
Theorem short_list_is_all_warm_up function cfg sched l (g : A → V) s :
  1 ≤ n_jobs cfg →
  Z.of_nat (length l) ≤ front_num cfg →
  (∀ a, a ∈ l → apply_function function cfg a = Returns (g a)) →
  appends cfg →
  initial_value cfg = None →
  parallel_map function cfg sched (PyList l) s
  = (Returns (Some (output_of cfg (heap s))),
     State (<[output_of cfg (heap s) := g <$> l]> (heap s)) (calls s ++ l) (console s)).
Proof.
  intros Hjobs Hshort Hg Happ Hini. destruct s as [h c k].
  assert (warm_inputs cfg (PyList l) = l ∧ rest_inputs cfg (PyList l) = []) as [Hwarm Hrest].
  { unfold warm_inputs, rest_inputs, slice_to, slice_from, slice_bound.
    destruct (Z.ltb_spec (front_num cfg) 0); [lia|].
    split; [apply take_ge | apply drop_ge]; lia. }
  rewrite (parallel_map_after_warm_up _ _ _ _ (g <$> l) h
             (<[output_of cfg h := g <$> l]> h)); [|done|..].
  - rewrite Hwarm, Hrest. simpl. pose proof Happ as (Hret & _).
    destruct (n_jobs cfg =? 1).
    + unfold serial, bind, ret. simpl. by rewrite Hret.
    + unfold bind, ThreadPoolExecutor, as_completed.
      destruct (Z.leb_spec (n_jobs cfg) 0); [lia|]. simpl.
      rewrite complete_all_nil. by rewrite Hret.
  - rewrite Hwarm. by apply Forall2_returns.
  - replace (<[output_of cfg h := g <$> l]> h)
      with (alter (λ xs : list V, xs ++ (g <$> l)) (output_of cfg h) (bound_heap cfg h)).
    + by apply accumulated_append.
    + by rewrite alter_bound_heap, initial_entries_fresh.
Qed.

(** ** The output list *)

(** A call in which nothing fails. *)
Lemma parallel_map_returns function cfg sched it vs1 vs2 h h1 h2 c k :
  1 ≤ n_jobs cfg →
  long_enough cfg it →
  Forall2 (λ a v, apply_function function cfg a = Returns v) (warm_inputs cfg it) vs1 →
  Forall2 (λ a v, apply_function function cfg a = Returns v) (rest_inputs cfg it) vs2 →
  accumulated cfg (output_of cfg h) vs1 (bound_heap cfg h) h1 →
  accumulated cfg (output_of cfg h) vs2 h1 h2 →
  ∃ c' k',
    parallel_map function cfg sched it (State h c k)
    = (Returns (if return_output cfg then Some (output_of cfg h) else None),
       State h2 c' k')
    ∧ c' ≡ₚ c ++ elements_of it.
Proof.
  intros Hjobs Hlen Hwarm Hrest Hacc1 Hacc2.
  rewrite (parallel_map_after_warm_up _ _ _ _ vs1 h h1) by done.
  destruct (n_jobs cfg =? 1) eqn:Hone.
  - destruct (serial_ok function cfg (output_of cfg h) _ _ h1 h2
                (c ++ warm_inputs cfg it) k Hrest Hacc2) as [k' ->].
    eexists _, _. split; [done|]. by rewrite <- app_assoc, warm_rest_inputs.
  - destruct (pool_run function cfg sched (rest_inputs cfg it) _
                (λ futures,
                   if negb (return_output cfg) then ret None
                   else bind (harvest function cfg (output_of cfg h) futures)
                          (λ _, ret (Some (output_of cfg h))))
                h1 (c ++ warm_inputs cfg it) k) as (c' & k' & -> & Hperm); [lia|].
    assert (c' ≡ₚ c ++ elements_of it) as Hperm'
      by by rewrite Hperm, <- app_assoc, warm_rest_inputs.
    destruct (return_output cfg) eqn:Hret; simpl.
    + unfold bind, harvest.
      destruct (harvest_loop_ok function cfg (output_of cfg h)
                  (imap (λ i f, (i, f)) (finished function cfg (rest_inputs cfg it)))
                  _ _ h1 h2 c' k' (enumerate_snd _) Hrest Hacc2) as [k'' ->].
      by eexists _, _.
    + rewrite (accumulated_fun _ _ _ _ _ _ Hacc2
                 (accumulated_skip cfg (output_of cfg h) vs2 h1 Hret)).
      by eexists _, _.
Qed.

(** C7, as the code has it. With [return_output = False] no value is ever
    returned: a call that returns returns [None], and the function has
    then been called once on every element of the input. On the pool the
    call returns as soon as the warm-up has succeeded, whatever the tasks
    do; with any [n_jobs >= 1] it returns when no call fails. (A failure
    in the warm-up is raised instead, and the later elements are not
    called.) With [return_output = True] a call that returns returns the
    list object [output] was bound to at line 67, the one [_add_func] wrote
    to, not a copy of it: the caller's own list when [initial_value] is a
    list that is not empty. Under the built-in [append], when no call
    fails, the call does return, and this object then holds the entries it
    had followed by the results in input order. *)
Theorem return_output_flag function cfg sched it s :
  (return_output cfg = false →
     (∀ o s', parallel_map function cfg sched it s = (Returns o, s') →
              o = None ∧ calls s' ≡ₚ (calls s ++ elements_of it))
     ∧ (1 < n_jobs cfg → long_enough cfg it →
        Forall (succeeds function cfg) (warm_inputs cfg it) →
        ∃ s', parallel_map function cfg sched it s = (Returns None, s')
              ∧ calls s' ≡ₚ (calls s ++ elements_of it))
     ∧ (1 ≤ n_jobs cfg → long_enough cfg it →
        Forall (succeeds function cfg) (elements_of it) →
        ∃ s', parallel_map function cfg sched it s = (Returns None, s')))
  ∧ (return_output cfg = true →
     (∀ o s', parallel_map function cfg sched it s = (Returns o, s') →
              o = Some (output_of cfg (heap s))
              ∧ ∀ (held : loc) x xs, initial_value cfg = Some held →
                                     heap s !! held = Some (x :: xs) → o = Some held)
     ∧ (∀ g : A → V,
          appends cfg → 1 ≤ n_jobs cfg → long_enough cfg it →
          (∀ a, a ∈ elements_of it → apply_function function cfg a = Returns (g a)) →
          ∃ s', parallel_map function cfg sched it s
                = (Returns (Some (output_of cfg (heap s))), s')
                ∧ heap s' = <[output_of cfg (heap s) :=
                                initial_entries cfg (heap s) ++ (g <$> elements_of it)]>
                              (heap s))).
Proof.
  destruct s as [h c k].
  cut ((return_output cfg = false →
          (∀ o s', parallel_map function cfg sched it (State h c k) = (Returns o, s') →
                   o = None ∧ calls s' ≡ₚ (c ++ elements_of it))
          ∧ (1 ≤ n_jobs cfg → long_enough cfg it →
             Forall (succeeds function cfg) (elements_of it) →
             ∃ s', parallel_map function cfg sched it (State h c k) = (Returns None, s')))
       ∧ (return_output cfg = true →
          ∀ o s', parallel_map function cfg sched it (State h c k) = (Returns o, s') →
                  o = Some (output_of cfg h))).
  { intros [Hfalse Htrue]. split.
    - intros Hret. destruct (Hfalse Hret) as [Hreturns Htotal].
      split_and!; [done| |done]. intros Hjobs Hlen Hwarm.
      destruct (pool_without_return_output function cfg sched it (State h c k))
        as (s' & Hrun & _ & Hcalls); [done..|].
      by exists s'.
    - intros Hret. split.
      + intros o s' Hrun. rewrite (Htrue Hret o s' Hrun). split; [done|].
        intros held x xs Hini Hheld.
        simpl in Hheld. unfold output_of, truthy. simpl. by rewrite Hini, Hheld.
      + intros g Happ Hjobs Hlen Hg. simpl.
        pose proof (warm_rest_inputs cfg it) as Hsplit.
        assert (Forall2 (λ a v, apply_function function cfg a = Returns v)
                  (warm_inputs cfg it) (g <$> warm_inputs cfg it)) as Hwarm.
        { apply Forall2_returns. intros a Ha. apply Hg. rewrite <- Hsplit.
          apply elem_of_app. auto. }
        assert (Forall2 (λ a v, apply_function function cfg a = Returns v)
                  (rest_inputs cfg it) (g <$> rest_inputs cfg it)) as Hrest.
        { apply Forall2_returns. intros a Ha. apply Hg. rewrite <- Hsplit.
          apply elem_of_app. auto. }
        destruct (parallel_map_returns function cfg sched it _ _ h _ _ c k
                    Hjobs Hlen Hwarm Hrest
                    (accumulated_append cfg _ _ _ Happ) (accumulated_append cfg _ _ _ Happ))
          as (c' & k' & Hrun & _).
        rewrite Hret in Hrun. eexists. split; [exact Hrun|]. simpl.
        by rewrite alter_app, alter_bound_heap, <- fmap_app, Hsplit. }
  split; [intros Hret; split|intros Hret].
  - intros o s' Hrun. unfold parallel_map in Hrun. unfold bind at 1 in Hrun.
    destruct (warm_up function cfg it _) as [[[front rest]|e] s1] eqn:Hwarm; [|done].
    destruct (warm_up_returns_inv _ _ _ _ _ _ _ Hwarm) as (_ & _ & -> & ->).
    unfold log_calls in Hrun. simpl in Hrun.
    unfold bind at 1 in Hrun. rewrite initial_value_or_list_run in Hrun.
    unfold bind at 1 in Hrun. rewrite for_each_add_heap in Hrun by done.
    destruct (Z.eqb_spec (n_jobs cfg) 1) as [Hone|Hone].
    + unfold serial in Hrun. unfold bind at 1 in Hrun.
      destruct (for_each (rest_inputs cfg it) _ _) as [[[]|e] s2] eqn:Hloop; [|done].
      apply serial_loop_returns_inv in Hloop as [_ Hcalls]; [|done].
      unfold ret in Hrun. rewrite Hret in Hrun. simplify_eq. split; [done|].
      rewrite Hcalls. simpl. by rewrite <- app_assoc, warm_rest_inputs.
    + destruct (Z.leb_spec (n_jobs cfg) 0) as [Hbad|Hgood].
      * unfold bind at 1, ThreadPoolExecutor in Hrun.
        destruct (Z.leb_spec (n_jobs cfg) 0); [done | lia].
      * destruct (pool_run function cfg sched (rest_inputs cfg it) _
                    (λ futures,
                       if negb (return_output cfg) then ret None
                       else bind (harvest function cfg (output_of cfg h) futures)
                              (λ _, ret (Some (output_of cfg h))))
                    (bound_heap cfg h) (c ++ warm_inputs cfg it) k)
          as (c' & k' & Hpool & Hperm); [done|].
        rewrite Hpool, Hret in Hrun. unfold ret in Hrun. simpl in Hrun. simplify_eq.
        split; [done|]. simpl. by rewrite Hperm, <- app_assoc, warm_rest_inputs.
  - intros Hjobs Hlen Hall.
    assert (Forall (succeeds function cfg) (warm_inputs cfg it)
            ∧ Forall (succeeds function cfg) (rest_inputs cfg it)) as [Hwarm Hrest].
    { apply Forall_app. by rewrite warm_rest_inputs. }
    destruct (Z.eqb_spec (n_jobs cfg) 1) as [Hone|Hone].
    + destruct (Forall_succeeds _ _ _ Hwarm) as [vs1 Hvs1].
      destruct (Forall_succeeds _ _ _ Hrest) as [vs2 Hvs2].
      rewrite (parallel_map_after_warm_up _ _ _ _ vs1 h (bound_heap cfg h));
        [|done|done|by apply accumulated_skip].
      rewrite (proj2 (Z.eqb_eq _ _) Hone).
      destruct (serial_ok function cfg (output_of cfg h) (rest_inputs cfg it) vs2
                  (bound_heap cfg h) (bound_heap cfg h) (c ++ warm_inputs cfg it) k)
        as [k' ->]; [done|by apply accumulated_skip|].
      rewrite Hret. by eexists.
    + destruct (pool_without_return_output function cfg sched it (State h c k))
        as (s' & Hrun & _); [lia|done..|].
      by exists s'.
  - intros o s' Hrun. unfold parallel_map in Hrun. unfold bind at 1 in Hrun.
    pose proof (warm_up_heap function cfg it (State h c k)) as Hheap.
    destruct (warm_up function cfg it _) as [[[front rest]|e] [h1 c1 k1]]; [|done].
    simpl in Hheap. subst h1.
    unfold bind at 1 in Hrun. rewrite initial_value_or_list_run in Hrun.
    unfold bind at 1 in Hrun.
    destruct (for_each front _ _) as [[[]|e] s2]; [|done].
    destruct (n_jobs cfg =? 1).
    + unfold serial in Hrun. unfold bind at 1 in Hrun.
      destruct (for_each rest _ _) as [[[]|e] s3]; [|done].
      unfold ret in Hrun. rewrite Hret in Hrun. by simplify_eq.
    + unfold bind at 1 in Hrun.
      destruct (ThreadPoolExecutor (n_jobs cfg) s2) as [[[]|e] s3]; [|done].
      unfold bind at 1 in Hrun.
      destruct (as_completed function cfg sched _ s3) as [[futures|e] s4]; [|done].
      rewrite Hret in Hrun. simpl in Hrun. unfold bind at 1 in Hrun.
      destruct (harvest function cfg _ futures s4) as [[[]|e] s5]; [|done].
      unfold ret in Hrun. by simplify_eq.
Qed.

Lemma accumulated_extend cfg r vs (xss : list (list V)) h :
  return_output cfg = true → add_func cfg = None → extend_result cfg = true →
  Forall2 (λ v xs, py_iter v = Returns xs) vs xss →
  accumulated cfg r vs h (alter (λ ys : list V, ys ++ concat xss) r h).
Proof.
  intros Hret Hadd Hext Hall. revert h.
  induction Hall as [|v xs vs xss Hv _ IH]; intros h; simpl.
  - replace (alter (λ ys : list V, ys ++ []) r h) with h; [constructor|].
    symmetry. apply alter_id. intros ys _. apply app_nil_r.
  - apply accumulated_cons with (alter (λ ys : list V, ys ++ xs) r h).
    + intros c k. unfold _add_func, list_extend. by rewrite Hret, Hadd, Hext, Hv.
    + rewrite <- alter_app. apply IH.
Qed.

Lemma iterable_results function cfg l (g : A → list V) :
  (∀ a, a ∈ l → ∃ v, apply_function function cfg a = Returns v
                     ∧ py_iter v = Returns (g a)) →
  ∃ vs, Forall2 (λ a v, apply_function function cfg a = Returns v) l vs
        ∧ Forall2 (λ v xs, py_iter v = Returns xs) vs (g <$> l).
Proof.
  induction l as [|a l IH]; intros Hg.
  - exists []. split; constructor.
  - destruct (Hg a) as (v & Ha & Hv); [set_solver|].
    destruct IH as (vs & Hvs & Hiter); [intros b Hb; apply Hg; set_solver|].
    exists (v :: vs). split; by constructor.
Qed.

(** X7. With [extend_result] and the built-in accumulation, when no call
    fails and every result is iterable, the new list is the concatenation
    of the results in input order (lines 62-63), for every [n_jobs >= 1]
    and every order of completion. *)
Theorem extend_result_concatenates function cfg sched it (g : A → list V) s :
  1 ≤ n_jobs cfg →
  front_num cfg ≤ Z.of_nat (length (elements_of it)) →
  (∀ a, a ∈ elements_of it →
        ∃ v, apply_function function cfg a = Returns v ∧ py_iter v = Returns (g a)) →
  return_output cfg = true →
  add_func cfg = None →
  extend_result cfg = true →
  initial_value cfg = None →
  ∃ output s',
    parallel_map function cfg sched it s = (Returns (Some output), s')
    ∧ (output ∉ dom (heap s))
    ∧ heap s' = <[output := concat (g <$> elements_of it)]> (heap s).
Proof.
  intros Hjobs Hfront Hg Hret Hadd Hext Hini. destruct s as [h c k].
  pose proof (warm_rest_inputs cfg it) as Hsplit.
  destruct (iterable_results function cfg (warm_inputs cfg it) g) as (vs1 & Hwarm & Hiter1).
  { intros a Ha. apply Hg. rewrite <- Hsplit. set_solver. }
  destruct (iterable_results function cfg (rest_inputs cfg it) g) as (vs2 & Hrest & Hiter2).
  { intros a Ha. apply Hg. rewrite <- Hsplit. set_solver. }
  destruct (parallel_map_returns function cfg sched it vs1 vs2 h _ _ c k
              Hjobs (long_enough_le _ _ Hfront) Hwarm Hrest
              (accumulated_extend cfg _ vs1 _ _ Hret Hadd Hext Hiter1)
              (accumulated_extend cfg _ vs2 _ _ Hret Hadd Hext Hiter2))
    as (c' & k' & Hrun & _).
  rewrite Hret in Hrun. eexists _, _. split_and!; [exact Hrun|by apply output_of_fresh|].
  simpl. rewrite alter_app, alter_bound_heap, initial_entries_fresh by done.
  by rewrite <- concat_app, <- fmap_app, Hsplit.
Qed.

(** X8. Line 67, [initial_value or list()], under the built-in [append]
    when no call fails. The list returned holds the entries it had before
    the call followed by the results in input order. An [initial_value]
    that is not empty is this list: the caller's own object is appended to
    and returned. An [initial_value] that is an empty list is not: the
    results go to a new list, and the caller's list stays empty. *)
Theorem initial_value_or_a_new_list function cfg sched it (g : A → V) s :
  1 ≤ n_jobs cfg →
  front_num cfg ≤ Z.of_nat (length (elements_of it)) →
  (∀ a, a ∈ elements_of it → apply_function function cfg a = Returns (g a)) →
  appends cfg →
  ∃ s',
    parallel_map function cfg sched it s = (Returns (Some (output_of cfg (heap s))), s')
    ∧ heap s' = <[output_of cfg (heap s) :=
                    initial_entries cfg (heap s) ++ (g <$> elements_of it)]> (heap s)
    ∧ (∀ (held : loc) x xs,
         initial_value cfg = Some held → heap s !! held = Some (x :: xs) →
         output_of cfg (heap s) = held ∧ initial_entries cfg (heap s) = x :: xs)
    ∧ (∀ held : loc,
         initial_value cfg = Some held → heap s !! held = Some [] →
         (output_of cfg (heap s) ∉ dom (heap s))
         ∧ initial_entries cfg (heap s) = []
         ∧ heap s' !! held = Some []).
Proof.
  intros Hjobs Hfront Hg Happ. destruct s as [h c k].
  pose proof (warm_rest_inputs cfg it) as Hsplit.
  assert (Forall2 (λ a v, apply_function function cfg a = Returns v)
            (warm_inputs cfg it) (g <$> warm_inputs cfg it)) as Hwarm.
  { apply Forall2_returns. intros a Ha. apply Hg. rewrite <- Hsplit. set_solver. }
  assert (Forall2 (λ a v, apply_function function cfg a = Returns v)
            (rest_inputs cfg it) (g <$> rest_inputs cfg it)) as Hrest.
  { apply Forall2_returns. intros a Ha. apply Hg. rewrite <- Hsplit. set_solver. }
  destruct (parallel_map_returns function cfg sched it _ _ h _ _ c k
              Hjobs (long_enough_le _ _ Hfront) Hwarm Hrest
              (accumulated_append cfg _ _ _ Happ) (accumulated_append cfg _ _ _ Happ))
    as (c' & k' & Hrun & _).
  pose proof Happ as (Hret & _). rewrite Hret in Hrun.
  assert (alter (λ xs : list V, xs ++ (g <$> rest_inputs cfg it)) (output_of cfg h)
            (alter (λ xs : list V, xs ++ (g <$> warm_inputs cfg it)) (output_of cfg h)
               (bound_heap cfg h))
          = <[output_of cfg h := initial_entries cfg h ++ (g <$> elements_of it)]> h)
    as Hheap by by rewrite alter_app, alter_bound_heap, <- fmap_app, Hsplit.
  eexists. split_and!; [exact Hrun|exact Hheap|..]; simpl.
  - intros held x xs Hini Hheld. unfold initial_entries, output_of, truthy.
    rewrite Hini. simpl. rewrite Hheld. simpl. by rewrite Hheld.
  - intros held Hini Hheld.
    assert (output_of cfg h = fresh (dom h)) as Hout
      by (unfold output_of, truthy; by rewrite Hini, Hheld).
    assert (output_of cfg h ∉ dom h) as Hfresh by (rewrite Hout; apply is_fresh).
    split_and!; [done|..].
    + unfold initial_entries. by rewrite (proj1 (not_elem_of_dom _ _) Hfresh).
    + rewrite Hheap, lookup_insert_ne; [done|]. intros Heq.
      apply Hfresh. rewrite Heq. apply elem_of_dom. by eexists.
Qed.

(** ** The error policies on the pool, with a warm-up and an [initial_value] *)

Lemma pool_harvests_after_warm_up function cfg sched it vs1 s :
  appends cfg → 1 < n_jobs cfg → long_enough cfg it →
  Forall2 (λ a v, apply_function function cfg a = Returns v) (warm_inputs cfg it) vs1 →
  ∃ s',
    parallel_map function cfg sched it s
    = (match (harvested cfg (apply_function function cfg <$> rest_inputs cfg it)).2 with
       | None => Returns (Some (output_of cfg (heap s)))
       | Some e => Raises e
       end, s')
    ∧ heap s' = <[output_of cfg (heap s) :=
                    initial_entries cfg (heap s) ++ vs1 ++
                    (harvested cfg (apply_function function cfg <$> rest_inputs cfg it)).1]>
                  (heap s).
Proof.
  intros Happ Hjobs Hlen Hwarm. destruct s as [h c k].
  rewrite (parallel_map_after_warm_up _ _ _ _ vs1 h _ _ _ Hlen Hwarm
             (accumulated_append cfg _ _ _ Happ)).
  destruct (Z.eqb_spec (n_jobs cfg) 1) as [|_]; [lia|].
  destruct (pool_run function cfg sched (rest_inputs cfg it) _
              (λ futures,
                 if negb (return_output cfg) then ret None
                 else bind (harvest function cfg (output_of cfg h) futures)
                        (λ _, ret (Some (output_of cfg h))))
              (alter (λ xs : list V, xs ++ vs1) (output_of cfg h) (bound_heap cfg h))
              (c ++ warm_inputs cfg it) k)
    as (c' & k' & -> & _); [lia|].
  pose proof Happ as (-> & _). simpl. unfold bind, harvest.
  destruct (harvest_loop_appends function cfg (output_of cfg h)
              (imap (λ i f, (i, f)) (finished function cfg (rest_inputs cfg it)))
              (rest_inputs cfg it)
              (alter (λ xs : list V, xs ++ vs1) (output_of cfg h) (bound_heap cfg h))
              c' k' Happ (enumerate_snd _))
    as [k'' ->].
  rewrite alter_app, alter_bound_heap. simpl.
  destruct (harvested cfg _) as [vs [e|]]; simpl; by eexists.
Qed.

Lemma entries_of_results function cfg l vs :
  Forall2 (λ a v, apply_function function cfg a = Returns v) l vs →
  vs = entry_of ∘ apply_function function cfg <$> l
  ∧ vs = omap (value_of ∘ apply_function function cfg) l
  ∧ filter (λ a, failed (apply_function function cfg a)) l = [].
Proof.
  induction 1 as [|a v l vs Ha _ (IH1 & IH2 & IH3)]; [done|].
  rewrite filter_cons_False by (simpl; rewrite Ha; auto).
  split_and!; [| |done]; simpl; rewrite Ha; simpl; by f_equal.
Qed.

(** X9. On the pool ([n_jobs > 1]) with [include_errors], without
    [raise_errors], under the built-in [append], once the warm-up has
    succeeded: the call returns the output list, which holds its initial
    entries followed by one entry for every element of the input, in input
    order, the result of the call or the exception it raised. Its length
    is that of [initial_value] plus that of the input. *)
Theorem pool_records_errors function cfg sched it s :
  appends cfg → 1 < n_jobs cfg → long_enough cfg it →
  Forall (succeeds function cfg) (warm_inputs cfg it) →
  raise_errors cfg = false → include_errors cfg = true →
  ∃ s' entries,
    parallel_map function cfg sched it s = (Returns (Some (output_of cfg (heap s))), s')
    ∧ heap s' !! output_of cfg (heap s) = Some (initial_entries cfg (heap s) ++ entries)
    ∧ entries = (entry_of ∘ apply_function function cfg <$> elements_of it)
    ∧ length entries = length (elements_of it).
Proof.
  intros Happ Hjobs Hlen Hwarm Hraise Hinclude.
  destruct (Forall_succeeds _ _ _ Hwarm) as [vs1 Hvs1].
  destruct (pool_harvests_after_warm_up function cfg sched it vs1 s)
    as (s' & Hrun & Hheap); [done..|].
  rewrite harvested_include in Hrun, Hheap by done. simpl in Hrun, Hheap.
  exists s', (entry_of ∘ apply_function function cfg <$> elements_of it).
  split_and!; [done| |done|by rewrite length_fmap].
  rewrite Hheap, lookup_insert_eq. do 2 f_equal.
  rewrite <- (warm_rest_inputs cfg it), fmap_app, <- list_fmap_compose.
  by destruct (entries_of_results _ _ _ _ Hvs1) as (<- & _).
Qed.

(** X10. On the pool ([n_jobs > 1]) without [include_errors] and without
    [raise_errors], under the built-in [append], once the warm-up has
    succeeded: the call returns the output list, which holds its initial
    entries followed by the results of the calls that returned, in input
    order. The calls that failed leave nothing: the entries added and the
    failed calls together are as many as the elements of the input. *)
Theorem pool_drops_errors function cfg sched it s :
  appends cfg → 1 < n_jobs cfg → long_enough cfg it →
  Forall (succeeds function cfg) (warm_inputs cfg it) →
  raise_errors cfg = false → include_errors cfg = false →
  ∃ s' entries,
    parallel_map function cfg sched it s = (Returns (Some (output_of cfg (heap s))), s')
    ∧ heap s' !! output_of cfg (heap s) = Some (initial_entries cfg (heap s) ++ entries)
    ∧ entries = omap (value_of ∘ apply_function function cfg) (elements_of it)
    ∧ (length entries
       + length (filter (λ a, failed (apply_function function cfg a)) (elements_of it))
       = length (elements_of it))%nat.
Proof.
  intros Happ Hjobs Hlen Hwarm Hraise Hinclude.
  destruct (Forall_succeeds _ _ _ Hwarm) as [vs1 Hvs1].
  destruct (pool_harvests_after_warm_up function cfg sched it vs1 s)
    as (s' & Hrun & Hheap); [done..|].
  rewrite harvested_suppress in Hrun, Hheap by done. simpl in Hrun, Hheap.
  exists s', (omap (value_of ∘ apply_function function cfg) (elements_of it)).
  split_and!; [done| |done|].
  - rewrite Hheap, lookup_insert_eq. do 2 f_equal.
    rewrite <- (warm_rest_inputs cfg it), omap_app, values_fmap.
    by destruct (entries_of_results _ _ _ _ Hvs1) as (_ & <- & _).
  - pose proof (length_values (apply_function function cfg <$> elements_of it)) as Hlen'.
    by rewrite length_fmap, failures_fmap, values_fmap in Hlen'.
Qed.

(** ** [extend_result] with [include_errors] *)

Lemma harvest_loop_stops function cfg r (ifs : list (nat * future A V))
    pre a post e vs h h' c k :
  ifs.*2 = finished function cfg (pre ++ a :: post) →
  Forall2 (λ a v, apply_function function cfg a = Returns v) pre vs →
  accumulated cfg r vs h h' →
  (∀ (i : nat) k,
     harvest_body function cfg r (i, (a, Some (apply_function function cfg a)))
       (State h' c k)
     = (Raises e, State h' c (k ++ [HarvestBar i]))) →
  ∃ k', for_each ifs (harvest_body function cfg r) (State h c k)
        = (Raises e, State h' c k').
Proof.
  intros Hifs Hpre Hacc Hstep. unfold finished in Hifs. rewrite fmap_app in Hifs.
  apply fmap_app_inv in Hifs as (ifs1 & ifs2 & Hifs1 & Hifs2 & ->).
  symmetry in Hifs2. apply fmap_cons_inv in Hifs2 as ([i f] & ifs3 & Hf & _ & ->).
  simpl in Hf. subst f.
  destruct (harvest_loop_ok function cfg r ifs1 pre vs h h' c k) as [k1 Hk1];
    [done..|].
  eexists. rewrite for_each_app. unfold bind at 1. rewrite Hk1.
  cbn [for_each]. unfold bind at 1. by rewrite Hstep.
Qed.

(** X11. On the pool, [extend_result] and [include_errors] do not go
    together: the handler of line 101 passes the exception to
    [output.extend], which raises when the exception is not iterable, and
    this second exception leaves [parallel_map] although [raise_errors] is
    not set. It is raised at the first call that fails, in submission
    order. *)
Theorem extend_result_rejects_included_errors
    function cfg sched it pre a post e e' vs1 vs2 s :
  1 < n_jobs cfg →
  return_output cfg = true → add_func cfg = None → extend_result cfg = true →
  raise_errors cfg = false → include_errors cfg = true →
  long_enough cfg it →
  Forall2 (λ a v, apply_function function cfg a = Returns v) (warm_inputs cfg it) vs1 →
  rest_inputs cfg it = pre ++ a :: post →
  Forall2 (λ a v, apply_function function cfg a = Returns v) pre vs2 →
  Forall (accumulates cfg) (vs1 ++ vs2) →
  apply_function function cfg a = Raises e →
  py_iter (exception_object e) = Raises e' →
  ∃ s', parallel_map function cfg sched it s = (Raises e', s').
Proof.
  intros Hjobs Hret Hadd Hext Hraise Hinclude Hlen Hwarm Hrest Hpre Haccs Ha He.
  destruct s as [h c k]. apply Forall_app in Haccs as [Haccs1 Haccs2].
  set (r := output_of cfg h).
  destruct (accumulated_total cfg r vs1 (bound_heap cfg h) Haccs1) as [h1 Hacc1].
  destruct (accumulated_total cfg r vs2 h1 Haccs2) as [h2 Hacc2].
  rewrite (parallel_map_after_warm_up _ _ _ _ vs1 h h1) by done.
  fold r. rewrite Hrest. destruct (Z.eqb_spec (n_jobs cfg) 1) as [|_]; [lia|].
  destruct (pool_run function cfg sched (pre ++ a :: post) _
              (λ futures,
                 if negb (return_output cfg) then ret None
                 else bind (harvest function cfg r futures) (λ _, ret (Some r)))
              h1 (c ++ warm_inputs cfg it) k) as (c' & k' & -> & _); [lia|].
  rewrite Hret. simpl. unfold bind, harvest.
  destruct (harvest_loop_stops function cfg r
              (imap (λ i f, (i, f)) (finished function cfg (pre ++ a :: post)))
              pre a post e' vs2 h1 h2 c' k' (enumerate_snd _) Hpre Hacc2) as [k'' ->].
  - intros i k0. unfold bind, try_except, modify, log_tick. simpl.
    rewrite Ha. simpl. unfold raise. rewrite Hraise, Hinclude.
    unfold _add_func, list_extend. by rewrite Hret, Hadd, Hext, He.
  - by eexists.
Qed.

(** ** What a call leaves untouched *)

#[local] Instance same_calls_refl : Reflexive (same_calls (A:=A) (V:=V)).
Proof. by intros s. Qed.

#[local] Instance same_calls_trans : Transitive (same_calls (A:=A) (V:=V)).
Proof. unfold same_calls. intros s1 s2 s3 H12 H23. congruence. Qed.

Lemma keeps_ret (R : state A V → state A V → Prop) `{!Reflexive R} {X} (x : X) :
  keeps R (ret x).
Proof. intros s. simpl. reflexivity. Qed.

Lemma keeps_raise (R : state A V → state A V → Prop) `{!Reflexive R} {X} e :
  keeps (X:=X) R (raise e).
Proof. intros s. simpl. reflexivity. Qed.

Lemma keeps_bind (R : state A V → state A V → Prop) `{!Transitive R} {X Y}
    (m : M A V X) (k : X → M A V Y) :
  keeps R m → (∀ x, keeps R (k x)) → keeps R (bind m k).
Proof.
  intros Hm Hk s. unfold bind. specialize (Hm s).
  destruct (m s) as [[x|e] s1]; simpl in *; [|done].
  etrans; [exact Hm | apply Hk].
Qed.

Lemma keeps_try_except (R : state A V → state A V → Prop) `{!Transitive R} {X}
    (m : M A V X) (handler : exn → M A V X) :
  keeps R m → (∀ e, keeps R (handler e)) → keeps R (try_except m handler).
Proof.
  intros Hm Hh s. unfold try_except. specialize (Hm s).
  destruct (m s) as [[x|e] s1]; simpl in *; [done|].
  etrans; [exact Hm | apply Hh].
Qed.

Lemma keeps_for_each (R : state A V → state A V → Prop)
    `{!Reflexive R, !Transitive R} {X} (xs : list X) (body : X → M A V ()) :
  (∀ x, x ∈ xs → keeps R (body x)) → keeps R (for_each xs body).
Proof.
  induction xs as [|x xs IH]; intros Hbody; simpl.
  - by apply keeps_ret.
  - apply keeps_bind; [done|apply Hbody; set_solver|].
    intros _. apply IH. intros y Hy. apply Hbody. set_solver.
Qed.

(** Lines 94-101, from what their parts keep. *)
Lemma keeps_harvest (R : state A V → state A V → Prop)
    `{!Reflexive R, !Transitive R} function cfg r (futures : list (future A V)) :
  (∀ t, keeps R (modify (log_tick t))) →
  (∀ f, f ∈ futures → keeps R (result function cfg f)) →
  (∀ x, keeps R (_add_func cfg x r)) →
  keeps R (harvest function cfg r futures).
Proof.
  intros Htick Hresult Hadd. unfold harvest. apply keeps_for_each; [done..|].
  intros [i f] Hin. apply keeps_bind; [done|apply Htick|]. intros _.
  apply keeps_try_except; [done|..].
  - apply keeps_bind; [done| |intros x; apply Hadd].
    apply Hresult. apply elem_of_lookup_imap in Hin as (j & f' & Heq & Hf').
    simplify_eq. by eapply list_elem_of_lookup_2.
  - intros e. destruct (raise_errors cfg); [by apply keeps_raise|].
    destruct (include_errors cfg); [apply Hadd | by apply keeps_ret].
Qed.

Lemma _add_func_same_calls cfg (x : V) r :
  keeps (A:=A) same_calls (_add_func cfg x r).
Proof.
  intros s. unfold _add_func, same_calls.
  destruct (return_output cfg); simpl; [|done].
  destruct (add_func cfg) as [g|].
  - by destruct (g x r (heap s)).
  - unfold list_extend, list_append.
    destruct (extend_result cfg); [destruct (py_iter x)|]; done.
Qed.

(** X12. On the pool nothing is cancelled: once the warm-up has succeeded
    and its results are in the output, the function is called once on
    every element of the input, whatever fails, whatever the policy and
    also when [parallel_map] ends up raising; the harvest itself makes no
    call. *)
Theorem pool_runs_every_task function cfg sched it vs1 s :
  1 < n_jobs cfg →
  long_enough cfg it →
  Forall2 (λ a v, apply_function function cfg a = Returns v) (warm_inputs cfg it) vs1 →
  Forall (accumulates cfg) vs1 →
  calls (parallel_map function cfg sched it s).2 ≡ₚ calls s ++ elements_of it.
Proof.
  intros Hjobs Hlen Hwarm Haccs. destruct s as [h c k].
  destruct (accumulated_total cfg (output_of cfg h) vs1 (bound_heap cfg h) Haccs)
    as [h1 Hacc1].
  rewrite (parallel_map_after_warm_up _ _ _ _ vs1 h h1) by done.
  destruct (Z.eqb_spec (n_jobs cfg) 1) as [|_]; [lia|].
  destruct (pool_run function cfg sched (rest_inputs cfg it) _
              (λ futures,
                 if negb (return_output cfg) then ret None
                 else bind (harvest function cfg (output_of cfg h) futures)
                        (λ _, ret (Some (output_of cfg h))))
              h1 (c ++ warm_inputs cfg it) k) as (c' & k' & -> & Hperm); [lia|].
  assert (keeps same_calls
            (if negb (return_output cfg) then ret None
             else bind (harvest function cfg (output_of cfg h)
                          (finished function cfg (rest_inputs cfg it)))
                    (λ _, ret (Some (output_of cfg h))))) as Hkeeps.
  { destruct (return_output cfg); simpl; [|by apply keeps_ret].
    apply keeps_bind; [apply _|  |intros; by apply keeps_ret].
    apply keeps_harvest; [apply _..| | |].
    - by intros t s.
    - intros f Hf. unfold finished in Hf.
      apply list_elem_of_fmap in Hf as (b & -> & _). simpl.
      destruct (apply_function function cfg b); by intros s.
    - intros x. apply _add_func_same_calls. }
  rewrite (Hkeeps (State h1 c' k')). simpl.
  by rewrite Hperm, <- app_assoc, warm_rest_inputs.
Qed.

(** ** The progress bars of the pool *)

#[local] Instance same_console_refl : Reflexive (same_console (A:=A) (V:=V)).
Proof. by intros s. Qed.

#[local] Instance same_console_trans : Transitive (same_console (A:=A) (V:=V)).
Proof. unfold same_console. intros s1 s2 s3 H12 H23. congruence. Qed.

Lemma complete_all_same_console function cfg (order : list nat)
    (futures : list (future A V)) :
  show_progress_bar cfg = false →
  keeps same_console (complete_all function cfg order futures).
Proof.
  intros Hshow. revert futures. induction order as [|i order IH]; intros futures; simpl.
  - by apply keeps_ret.
  - apply keeps_bind; [apply _| |intros; apply IH].
    unfold complete. rewrite Hshow.
    destruct (futures !! i) as [[a [o|]]|]; try by apply keeps_ret.
    apply keeps_bind; [apply _|by intros s|]. intros o.
    apply keeps_bind; [apply _|by apply keeps_ret|intros; by apply keeps_ret].
Qed.

Lemma harvest_loop_console function cfg r (ifs : list (nat * future A V)) pre vs h h' c k :
  ifs.*2 = finished function cfg pre →
  Forall2 (λ a v, apply_function function cfg a = Returns v) pre vs →
  accumulated cfg r vs h h' →
  for_each ifs (harvest_body function cfg r) (State h c k)
  = (Returns (), State h' c (k ++ (HarvestBar <$> ifs.*1))).
Proof.
  intros Hifs Hall. revert ifs h k Hifs.
  induction Hall as [|a v pre vs Ha _ IH]; intros ifs h k Hifs Hacc.
  - destruct ifs; [|done]. inversion Hacc; subst. simpl. by rewrite app_nil_r.
  - destruct ifs as [|[i f] ifs]; [done|]. simpl in Hifs. simplify_eq.
    inversion Hacc as [|? ? ? h1 ? Hv Hrest]; subst.
    cbn [for_each]. unfold bind at 1.
    rewrite (harvest_step_ok _ _ _ _ _ v h h1) by done.
    rewrite (IH ifs h1 (k ++ [HarvestBar i])) by done.
    simpl. by rewrite <- app_assoc.
Qed.

Lemma enumerate_fst (g : nat → nat) (fs : list (future A V)) :
  (imap (λ i f, (g i, f)) fs).*1 = g <$> seq 0 (length fs).
Proof.
  revert g. induction fs as [|f fs IH]; intros g; [done|].
  simpl. f_equal. rewrite <- fmap_S_seq, <- list_fmap_compose. apply (IH (g ∘ S)).
Qed.

(** X14. On the pool, [show_progress_bar=False] silences the bar of line 85
    and no other: when no call fails, a call without [return_output]
    writes nothing, and a call with [return_output] still moves the bar of
    line 94 once for every future, in submission order. *)
Theorem pool_progress_bars function cfg sched it vs1 vs2 s :
  1 < n_jobs cfg →
  show_progress_bar cfg = false →
  long_enough cfg it →
  Forall2 (λ a v, apply_function function cfg a = Returns v) (warm_inputs cfg it) vs1 →
  Forall2 (λ a v, apply_function function cfg a = Returns v) (rest_inputs cfg it) vs2 →
  Forall (accumulates cfg) (vs1 ++ vs2) →
  console (parallel_map function cfg sched it s).2
  = console s ++ (if return_output cfg
                  then HarvestBar <$> seq 0 (length (rest_inputs cfg it))
                  else []).
Proof.
  intros Hjobs Hshow Hlen Hwarm Hrest Haccs. destruct s as [h c k].
  apply Forall_app in Haccs as [Haccs1 Haccs2].
  destruct (accumulated_total cfg (output_of cfg h) vs1 (bound_heap cfg h) Haccs1)
    as [h1 Hacc1].
  destruct (accumulated_total cfg (output_of cfg h) vs2 h1 Haccs2) as [h2 Hacc2].
  rewrite (parallel_map_after_warm_up _ _ _ _ vs1 h h1) by done.
  destruct (Z.eqb_spec (n_jobs cfg) 1) as [|_]; [lia|].
  unfold bind at 1, ThreadPoolExecutor.
  destruct (Z.leb_spec (n_jobs cfg) 0); [lia|]. simpl. unfold bind at 1.
  destruct (as_completed_run function cfg sched (rest_inputs cfg it) h1
              (c ++ warm_inputs cfg it) k) as (c' & k' & Hrun & _).
  pose proof (complete_all_same_console function cfg
                (sched ++ seq 0 (length (submit (V:=V) <$> rest_inputs cfg it)))
                (submit <$> rest_inputs cfg it) Hshow
                (State h1 (c ++ warm_inputs cfg it) k)) as Hquiet.
  unfold as_completed in Hrun |- *. rewrite Hrun in Hquiet |- *.
  unfold same_console in Hquiet. simpl in Hquiet. subst k'.
  destruct (return_output cfg); simpl.
  - unfold bind, harvest.
    rewrite (harvest_loop_console _ _ _ _ _ vs2 h1 h2) by (apply enumerate_snd || done).
    simpl. f_equal. rewrite (enumerate_fst id). unfold finished.
    by rewrite list_fmap_id, length_fmap.
  - by rewrite app_nil_r.
Qed.

(** ** The results of the warm-up *)

(** X15. The results of the warm-up are added outside any [try] (lines
    68-69): with [extend_result], a warm-up result that is not iterable
    makes [output.extend] raise out of [parallel_map], whatever the policy
    and for every [n_jobs]. The whole warm-up has run by then, and no other
    element is ever called. *)
Theorem warm_up_results_are_added_outside_the_policy
    function cfg sched it pre_vs v post_vs e s :
  long_enough cfg it →
  Forall2 (λ a v, apply_function function cfg a = Returns v)
    (warm_inputs cfg it) (pre_vs ++ v :: post_vs) →
  Forall (accumulates cfg) pre_vs →
  return_output cfg = true → add_func cfg = None → extend_result cfg = true →
  py_iter v = Raises e →
  ∃ s',
    parallel_map function cfg sched it s = (Raises e, s')
    ∧ calls s' = calls s ++ warm_inputs cfg it.
Proof.
  intros Hlen Hwarm Haccs Hret Hadd Hext Hv. destruct s as [h c k].
  destruct (accumulated_total cfg (output_of cfg h) pre_vs (bound_heap cfg h) Haccs)
    as [h1 Hacc1].
  unfold parallel_map. unfold bind at 1.
  rewrite (warm_up_ok _ _ _ (pre_vs ++ v :: post_vs)) by done.
  unfold log_calls. simpl. unfold bind at 1. rewrite initial_value_or_list_run.
  unfold bind at 1. rewrite for_each_app. unfold bind at 1.
  rewrite (for_each_add _ _ _ _ h1) by done.
  cbn [for_each]. unfold bind at 1.
  unfold _add_func at 1, list_extend. rewrite Hret, Hadd, Hext, Hv. simpl.
  by eexists.
Qed.
End Properties.

(** ** Closed instances *)

(** *** C1 *)

(** [inputs = [1,2,3,4,5]], [function = lambda x: x*x], [n_jobs=2],
    [front_num=1], [raise_errors=True]; the tasks complete in the order
    3, 1, 0, 2. *)
Lemma parallel_map_maps_witness :
  ∃ output s',
    parallel_map (lambda square) (example_cfg 2 1 true true true)
      [3; 1]%nat (PyList [1; 2; 3; 4; 5]) empty_state
    = (Returns (Some output), s')
    ∧ (output ∉ dom (heap empty_state))
    ∧ heap s' = <[output := (λ x, PyInt (x * x)) <$> [1; 2; 3; 4; 5]]> (heap empty_state)
    ∧ calls s' ≡ₚ (calls empty_state ++ [1; 2; 3; 4; 5]).
Proof.
  apply (parallel_map_maps (lambda square) (example_cfg 2 1 true true true)
           [3; 1]%nat (PyList [1; 2; 3; 4; 5]) (λ x, PyInt (x * x)) empty_state).
  - simpl. lia.
  - simpl. lia.
  - intros a _. reflexivity.
  - repeat split.
  - reflexivity.
Defined.

(** *** C2 *)

(** C2. [inputs = [2,0,4]], [function = lambda x: 10 // x], [n_jobs=1],
    [front_num=0], [raise_errors=False], [include_errors=True]: the call
    raises [ZeroDivisionError] after the calls on 2 and 0, where the
    docstring of [include_errors] and the claim have it return
    [[5, ZeroDivisionError, 2]]; the pool, on the same input, does return
    this list. *)
Lemma serial_ignores_include_errors :
  let serial_run := parallel_map (lambda ten_div) (example_cfg 1 0 false true true)
                      [] (PyList [2; 0; 4]) empty_state in
  let pool_run := parallel_map (lambda ten_div) (example_cfg 2 0 false true true)
                    [] (PyList [2; 0; 4]) empty_state in
  serial_run.1 = Raises ZeroDivisionError
  ∧ calls serial_run.2 = [2; 0]
  ∧ ∃ output, pool_run.1 = Returns (Some output)
              ∧ heap pool_run.2 !! output
                = Some [PyInt 5; PyExc ZeroDivisionError; PyInt 2].
Proof. split_and!; [done..|]. by eexists. Qed.

(** *** C3 *)

(** C3. [inputs = [0]], [function = lambda x: 10 // x], [front_num=0],
    [raise_errors=True]. With [n_jobs=2] and [return_output=False] the
    call on 0 fails after the warm-up and [parallel_map] returns [None]
    without raising: lines 90-92 return before any future is asked for its
    result. The docstring of [raise_errors] and the claim have the error
    raised, and so do the two sibling paths on the same input: the pool
    with [return_output=True] and the serial branch raise
    [ZeroDivisionError]. *)
Lemma raise_errors_without_return_output :
  let run jobs returns :=
    parallel_map (lambda ten_div) (example_cfg jobs 0 true true returns)
      [] (PyList [0]) empty_state in
  apply_function (lambda ten_div) (example_cfg 2 0 true true false) 0
  = Raises ZeroDivisionError
  ∧ (run 2 false).1 = Returns None
  ∧ (run 2 true).1 = Raises ZeroDivisionError
  ∧ (run 1 false).1 = Raises ZeroDivisionError.
Proof. done. Qed.

(** [inputs = [2,5,0,4]], [function = lambda x: 10 // x], [n_jobs=2],
    [front_num=1], [raise_errors=True]: the call on 0 is the first to fail;
    the results 5 and 2 that precede it are in the list nobody receives. *)
Lemma raise_errors_raises_first_failure_witness :
  ∃ s',
    parallel_map (lambda ten_div) (example_cfg 2 1 true true true)
      [2; 0]%nat (PyList [2; 5; 0; 4]) empty_state
    = (Raises ZeroDivisionError, s')
    ∧ heap s' = <[1%positive := [PyInt 5; PyInt 2]]> ∅.
Proof.
  destruct (raise_errors_raises_first_failure (lambda ten_div)
              (example_cfg 2 1 true true true) [2; 0]%nat (PyList [2; 5; 0; 4])
              [5] 0 [4] ZeroDivisionError [PyInt 5] [PyInt 2] empty_state)
    as (s' & Hrun & Hheap).
  - reflexivity.
  - simpl. lia.
  - by left.
  - exact I.
  - by repeat constructor.
  - reflexivity.
  - by repeat constructor.
  - reflexivity.
  - repeat constructor; intros _ Hext; discriminate Hext.
  - exists s'. split; [exact Hrun|]. by destruct Hheap as [-> _].
Defined.

(** *** C4 *)

(** C4. [inputs = [1,0]], [function = lambda x: 10 // x], [front_num=0],
    [raise_errors=False], [include_errors=True]. With [n_jobs=1] the call
    raises [ZeroDivisionError] and there is no output of length 2; with
    [n_jobs=2] the output is [[10, ZeroDivisionError]]. The defect is the
    one of C2: lines 73-75 have no [try]. *)
Lemma include_errors_needs_the_pool :
  (parallel_map (lambda ten_div) (example_cfg 1 0 false true true)
     [] (PyList [1; 0]) empty_state).1 = Raises ZeroDivisionError
  ∧ ∃ output s',
      parallel_map (lambda ten_div) (example_cfg 2 0 false true true)
        [] (PyList [1; 0]) empty_state = (Returns (Some output), s')
      ∧ heap s' !! output = Some [PyInt 10; PyExc ZeroDivisionError].
Proof. split; [done|]. by eexists _, _. Qed.

(** *** C5 *)

(** C5. [inputs = [0,5]], [function = lambda x: 10 // x], [front_num=0],
    [raise_errors=False], [include_errors=False]. With [n_jobs=1] the call
    raises [ZeroDivisionError] where one failure of two should leave an
    output of length 1; with [n_jobs=2] the output is [[2]]. The defect is
    the one of C2: lines 73-75 have no [try]. *)
Lemma suppression_needs_the_pool :
  (parallel_map (lambda ten_div) (example_cfg 1 0 false false true)
     [] (PyList [0; 5]) empty_state).1 = Raises ZeroDivisionError
  ∧ ∃ output s',
      parallel_map (lambda ten_div) (example_cfg 2 0 false false true)
        [] (PyList [0; 5]) empty_state = (Returns (Some output), s')
      ∧ heap s' !! output = Some [PyInt 2].
Proof. split; [done|]. by eexists _, _. Qed.

(** *** C6 *)

(** [inputs = [1,0,2]], [function = lambda x: 10 // x], [front_num=2],
    [n_jobs=4], [raise_errors=False], [include_errors=True]: the division
    by zero is raised from the warm-up, after the calls on 1 and 0. *)
Lemma warm_up_failure_propagates_witness :
  parallel_map (lambda ten_div) (example_cfg 4 2 false true true)
    [] (PyList [1; 0; 2]) empty_state
  = (Raises ZeroDivisionError, State ∅ [1; 0] []).
Proof.
  apply (warm_up_failure_propagates (lambda ten_div) (example_cfg 4 2 false true true)
           [] (PyList [1; 0; 2]) [1] 0 [] ZeroDivisionError empty_state).
  - reflexivity.
  - repeat constructor. by exists (PyInt 10).
  - reflexivity.
Defined.

(** *** C7 *)

(** C7 as stated fails: [inputs = [0,5]], [function = lambda x: 10 // x],
    [n_jobs=2], [front_num=1], [return_output=False]. The call on 0 fails
    in the warm-up, the exception is raised as the warm-up is meant to, and
    the function is never called on 5. *)
Lemma failing_warm_up_skips_the_rest :
  parallel_map (lambda ten_div) (example_cfg 2 1 false true false)
    [] (PyList [0; 5]) empty_state
  = (Raises ZeroDivisionError, State ∅ [0] []).
Proof. done. Qed.

(** [inputs = [1,2,3]], [function = lambda x: x*x], [n_jobs=2],
    [front_num=1]. With [return_output=False] the call returns [None] after
    one call on each element. With [return_output=True] and
    [initial_value] the caller's list [[7]] at address 1, the call returns
    this address, where the list is now [[7, 1, 4, 9]]. *)
Lemma return_output_flag_witness :
  (∃ s', parallel_map (lambda square) (example_cfg 2 1 false true false)
           [] (PyList [1; 2; 3]) empty_state = (Returns None, s')
         ∧ calls s' ≡ₚ [1; 2; 3])
  ∧ (∃ s', parallel_map (lambda square)
             (Config 2 false 1 true (Some 1%positive) false true false true None)
             [] (PyList [1; 2; 3]) held_state = (Returns (Some 1%positive), s')
           ∧ heap s' !! 1%positive = Some [PyInt 7; PyInt 1; PyInt 4; PyInt 9]).
Proof.
  split.
  - destruct (return_output_flag (lambda square) (example_cfg 2 1 false true false)
                [] (PyList [1; 2; 3]) empty_state) as [Hfalse _].
    destruct (Hfalse eq_refl) as (_ & Hpool & _).
    apply Hpool.
    + simpl. lia.
    + exact I.
    + repeat constructor. by exists (PyInt 1).
  - destruct (return_output_flag (lambda square)
                (Config 2 false 1 true (Some 1%positive) false true false true None)
                [] (PyList [1; 2; 3]) held_state) as [_ Htrue].
    destruct (Htrue eq_refl) as [Hsame Hbuilt].
    destruct (Hbuilt (λ x, PyInt (x * x))) as (s' & Hrun & Hheap).
    + repeat split.
    + simpl. lia.
    + exact I.
    + intros a _. reflexivity.
    + exists s'. destruct (Hsame _ _ Hrun) as [_ Hheld].
      specialize (Hheld 1%positive (PyInt 7) [] eq_refl eq_refl).
      split; [by rewrite Hrun, Hheld|]. by rewrite Hheap.
Defined.

(** *** C8 *)

(** C8 as stated fails. With [front_num=-1] ([n_jobs=2],
    [inputs = [1,2,3]], [function = lambda x: x*x]) the call returns
    [[1, 4, 9]] and raises nothing. With [n_jobs=0] and [front_num=1] the
    function is called on 1 before [ValueError] is raised. *)
Lemma invalid_configuration_is_run :
  (∃ output s',
     parallel_map (lambda square) (example_cfg 2 (-1) false true true)
       [] (PyList [1; 2; 3]) empty_state = (Returns (Some output), s')
     ∧ heap s' !! output = Some [PyInt 1; PyInt 4; PyInt 9])
  ∧ (let run := parallel_map (lambda square) (example_cfg 0 1 false true true)
                  [] (PyList [1; 2; 3]) empty_state in
     run.1 = Raises ValueError ∧ calls run.2 = [1]).
Proof. split; [by eexists _, _|done]. Qed.

(** [n_jobs=0], [front_num=1]: [ValueError] after the call on 1.
    [front_num=-1] on a list of three elements: the call with
    [front_num=2]. *)
Lemma configuration_is_not_checked_witness :
  (∃ s', parallel_map (lambda square) (example_cfg 0 1 false true true)
           [] (PyList [1; 2; 3]) empty_state = (Raises ValueError, s')
         ∧ calls s' = [1])
  ∧ parallel_map (lambda square) (example_cfg 2 (-1) false true true)
      [] (PyList [1; 2; 3]) empty_state
    = parallel_map (lambda square) (example_cfg 2 2 false true true)
        [] (PyList [1; 2; 3]) empty_state.
Proof.
  split.
  - destruct (configuration_is_not_checked (lambda square)
                (example_cfg 0 1 false true true) [] (PyList [1; 2; 3]) empty_state)
      as [Hjobs _].
    apply (Hjobs ltac:(simpl; lia) I [PyInt 1]).
    + by repeat constructor.
    + repeat constructor; intros _ Hext; discriminate Hext.
  - destruct (configuration_is_not_checked (lambda square)
                (example_cfg 2 (-1) false true true) [] (PyList [1; 2; 3]) empty_state)
      as [_ Hfront].
    exact Hfront.
Defined.

(** *** C10 *)

(** [inputs = [2,0,4]], [function = lambda x: 10 // x], [n_jobs=2],
    [front_num=1], [raise_errors=True], [return_output=False]: the call on
    0 fails in the pool and [parallel_map] returns [None]. *)
Lemma unharvested_failures_are_silent_witness :
  ∃ s',
    parallel_map (lambda ten_div) (example_cfg 2 1 true true false)
      [] (PyList [2; 0; 4]) empty_state = (Returns None, s')
    ∧ heap s' = bound_heap (example_cfg 2 1 true true false) (heap empty_state)
    ∧ calls s' ≡ₚ (calls empty_state ++ [2; 0; 4]).
Proof.
  apply (unharvested_failures_are_silent (lambda ten_div)
           (example_cfg 2 1 true true false) [] (PyList [2; 0; 4]) empty_state).
  - simpl. lia.
  - reflexivity.
  - exact I.
  - repeat constructor. by exists (PyInt 5).
Defined.

(** *** More of [parallel_map] *)

(** [inputs = [2,5,0,4]], [function = lambda x: 10 // x], [n_jobs=1],
    [front_num=1], neither [raise_errors] nor [include_errors]. *)
Lemma serial_branch_raises_witness :
  ∃ s',
    parallel_map (lambda ten_div) (example_cfg 1 1 false false true)
      [] (PyList [2; 5; 0; 4]) empty_state = (Raises ZeroDivisionError, s')
    ∧ calls s' = [2; 5; 0].
Proof.
  apply (serial_branch_raises (lambda ten_div) (example_cfg 1 1 false false true)
           [] (PyList [2; 5; 0; 4]) [5] 0 [4] ZeroDivisionError
           [PyInt 5] [PyInt 2] empty_state).
  - reflexivity.
  - exact I.
  - by repeat constructor.
  - reflexivity.
  - by repeat constructor.
  - reflexivity.
  - repeat constructor; intros _ Hext; discriminate Hext.
Defined.

(** [inputs = [1,2,3]], [function = lambda x: x*x], [n_jobs=1],
    [front_num=1], [show_progress_bar=False]. *)
Lemma serial_branch_runs_in_order_witness :
  ∃ s',
    parallel_map (lambda square)
      (Config 1 false 1 false None false true false true None)
      [] (PyList [1; 2; 3]) empty_state = (Returns (Some 1%positive), s')
    ∧ calls s' = [1; 2; 3]
    ∧ console s' = [SerialBar; SerialBar].
Proof.
  apply (serial_branch_runs_in_order (lambda square)
           (Config 1 false 1 false None false true false true None)
           [] (PyList [1; 2; 3]) [PyInt 1] [PyInt 4; PyInt 9] empty_state).
  - reflexivity.
  - exact I.
  - by repeat constructor.
  - by repeat constructor.
  - repeat constructor; intros _ Hext; discriminate Hext.
Defined.

(** [raise_errors=True] on [[2,0,4]] with and without [include_errors]. *)
Lemma raise_errors_overrides_include_errors_witness :
  parallel_map (lambda ten_div) (example_cfg 2 0 true false true)
    [] (PyList [2; 0; 4]) empty_state
  = parallel_map (lambda ten_div) (example_cfg 2 0 true true true)
      [] (PyList [2; 0; 4]) empty_state.
Proof.
  apply (raise_errors_overrides_include_errors (lambda ten_div)
           (example_cfg 2 0 true true true) false [] (PyList [2; 0; 4]) empty_state).
  reflexivity.
Defined.

(** [return_output=False] with an [add_func] that always raises, and
    [extend_result], against the built-in [append]. *)
Lemma accumulator_unused_without_return_output_witness :
  parallel_map (lambda square)
    (Config 2 false 1 true None false true true false (Some failing_add_func))
    [] (PyList [1; 2; 3]) empty_state
  = parallel_map (lambda square) (example_cfg 2 1 false true false)
      [] (PyList [1; 2; 3]) empty_state.
Proof.
  apply (accumulator_unused_without_return_output (lambda square)
           (example_cfg 2 1 false true false) true (Some failing_add_func)
           [] (PyList [1; 2; 3]) empty_state).
  reflexivity.
Defined.

(** [iter([1,2])] with the default [front_num=3]. *)
Lemma exhausted_iterator_raises_witness :
  parallel_map (lambda square) (example_cfg 16 3 false true true)
    [] (PyIter [1; 2]) empty_state
  = (Raises StopIteration, State ∅ [1; 2] []).
Proof.
  apply (exhausted_iterator_raises (lambda square) (example_cfg 16 3 false true true)
           [] [1; 2] empty_state).
  - simpl. lia.
  - repeat constructor; eexists; reflexivity.
Defined.

(** [[1,2]] with the default [front_num=3] and [n_jobs=16]. *)
Lemma short_list_is_all_warm_up_witness :
  parallel_map (lambda square) (example_cfg 16 3 false true true)
    [] (PyList [1; 2]) empty_state
  = (Returns (Some 1%positive), State {[ 1%positive := [PyInt 1; PyInt 4] ]} [1; 2] []).
Proof.
  apply (short_list_is_all_warm_up (lambda square) (example_cfg 16 3 false true true)
           [] [1; 2] (λ x, PyInt (x * x)) empty_state).
  - simpl. lia.
  - simpl. lia.
  - intros a _. reflexivity.
  - repeat split.
  - reflexivity.
Defined.

(** [inputs = [1,2,3]], [function = lambda x: [x, x]], [extend_result=True],
    [n_jobs=2], [front_num=1]. *)
Lemma extend_result_concatenates_witness :
  ∃ output s',
    parallel_map (lambda twice)
      (Config 2 false 1 true None false true true true None)
      [2; 1]%nat (PyList [1; 2; 3]) empty_state = (Returns (Some output), s')
    ∧ (output ∉ dom (heap empty_state))
    ∧ heap s' = <[output := PyInt <$> [1; 1; 2; 2; 3; 3]]> (heap empty_state).
Proof.
  apply (extend_result_concatenates (lambda twice)
           (Config 2 false 1 true None false true true true None)
           [2; 1]%nat (PyList [1; 2; 3]) (λ x, [PyInt x; PyInt x]) empty_state).
  - simpl. lia.
  - simpl. lia.
  - intros a _. by exists (PyInts [a; a]).
  - reflexivity.
  - reflexivity.
  - reflexivity.
  - reflexivity.
Defined.

(** The caller's list [[7]] as [initial_value]; [inputs = [1,2,3]],
    [function = lambda x: x*x], [n_jobs=2], [front_num=1]. *)
Lemma initial_value_or_a_new_list_witness :
  ∃ s',
    parallel_map (lambda square)
      (Config 2 false 1 true (Some 1%positive) false true false true None)
      [] (PyList [1; 2; 3]) held_state = (Returns (Some 1%positive), s')
    ∧ heap s' !! 1%positive = Some [PyInt 7; PyInt 1; PyInt 4; PyInt 9].
Proof.
  destruct (initial_value_or_a_new_list (lambda square)
              (Config 2 false 1 true (Some 1%positive) false true false true None)
              [] (PyList [1; 2; 3]) (λ x, PyInt (x * x)) held_state)
    as (s' & Hrun & Hheap & _).
  - simpl. lia.
  - simpl. lia.
  - intros a _. reflexivity.
  - repeat split.
  - exists s'. split; [exact Hrun|]. by rewrite Hheap.
Defined.

(** [inputs = [2,0,4]], [function = lambda x: 10 // x], [n_jobs=2],
    [front_num=1], [include_errors=True]. *)
Lemma pool_records_errors_witness :
  ∃ s',
    parallel_map (lambda ten_div) (example_cfg 2 1 false true true)
      [] (PyList [2; 0; 4]) empty_state = (Returns (Some 1%positive), s')
    ∧ heap s' !! 1%positive = Some [PyInt 5; PyExc ZeroDivisionError; PyInt 2].
Proof.
  destruct (pool_records_errors (lambda ten_div) (example_cfg 2 1 false true true)
              [] (PyList [2; 0; 4]) empty_state)
    as (s' & entries & Hrun & Hheap & -> & _).
  - repeat split.
  - simpl. lia.
  - exact I.
  - repeat constructor. by exists (PyInt 5).
  - reflexivity.
  - reflexivity.
  - exists s'. split; [exact Hrun | exact Hheap].
Defined.

(** [inputs = [2,0,4]], [function = lambda x: 10 // x], [n_jobs=2],
    [front_num=1], [include_errors=False]. *)
Lemma pool_drops_errors_witness :
  ∃ s',
    parallel_map (lambda ten_div) (example_cfg 2 1 false false true)
      [] (PyList [2; 0; 4]) empty_state = (Returns (Some 1%positive), s')
    ∧ heap s' !! 1%positive = Some [PyInt 5; PyInt 2].
Proof.
  destruct (pool_drops_errors (lambda ten_div) (example_cfg 2 1 false false true)
              [] (PyList [2; 0; 4]) empty_state)
    as (s' & entries & Hrun & Hheap & -> & _).
  - repeat split.
  - simpl. lia.
  - exact I.
  - repeat constructor. by exists (PyInt 5).
  - reflexivity.
  - reflexivity.
  - exists s'. split; [exact Hrun | exact Hheap].
Defined.

(** [inputs = [2,0,4]], [function = lambda x: [10 // x]],
    [extend_result=True], [include_errors=True], [n_jobs=2],
    [front_num=1]: [TypeError], since [ZeroDivisionError] is not
    iterable. *)
Lemma extend_result_rejects_included_errors_witness :
  ∃ s',
    parallel_map (lambda ten_div_list)
      (Config 2 false 1 true None false true true true None)
      [] (PyList [2; 0; 4]) empty_state = (Raises TypeError, s').
Proof.
  apply (extend_result_rejects_included_errors (lambda ten_div_list)
           (Config 2 false 1 true None false true true true None)
           [] (PyList [2; 0; 4]) [] 0 [4] ZeroDivisionError TypeError
           [PyInts [5]] [] empty_state).
  - simpl. lia.
  - reflexivity.
  - reflexivity.
  - reflexivity.
  - reflexivity.
  - reflexivity.
  - exact I.
  - by repeat constructor.
  - reflexivity.
  - constructor.
  - repeat constructor. intros _ _. by eexists.
  - reflexivity.
  - reflexivity.
Defined.

(** [inputs = [2,0,4]], [function = lambda x: 10 // x], [n_jobs=2],
    [front_num=1], [raise_errors=True]: the call raises, and 4 has been
    called all the same. *)
Lemma pool_runs_every_task_witness :
  calls (parallel_map (lambda ten_div) (example_cfg 2 1 true true true)
           [] (PyList [2; 0; 4]) empty_state).2 ≡ₚ [2; 0; 4].
Proof.
  apply (pool_runs_every_task (lambda ten_div) (example_cfg 2 1 true true true)
           [] (PyList [2; 0; 4]) [PyInt 5] empty_state).
  - simpl. lia.
  - exact I.
  - by repeat constructor.
  - repeat constructor; intros _ Hext; discriminate Hext.
Defined.

(** [inputs = [1,2,3]], [function = lambda x: x*x], [n_jobs=2],
    [front_num=1], [show_progress_bar=False]. *)
Lemma pool_progress_bars_witness :
  console (parallel_map (lambda square)
             (Config 2 false 1 false None false true false true None)
             [1]%nat (PyList [1; 2; 3]) empty_state).2
  = [HarvestBar 0; HarvestBar 1].
Proof.
  apply (pool_progress_bars (lambda square)
           (Config 2 false 1 false None false true false true None)
           [1]%nat (PyList [1; 2; 3]) [PyInt 1] [PyInt 4; PyInt 9] empty_state).
  - simpl. lia.
  - reflexivity.
  - exact I.
  - by repeat constructor.
  - by repeat constructor.
  - repeat constructor; intros _ Hext; discriminate Hext.
Defined.

(** [inputs = [1,2,3]], [function = lambda x: x*x], [extend_result=True],
    [front_num=1], [include_errors=True]: the integer 1 is not iterable. *)
Lemma warm_up_results_are_added_outside_the_policy_witness :
  ∃ s',
    parallel_map (lambda square)
      (Config 2 false 1 true None false true true true None)
      [] (PyList [1; 2; 3]) empty_state = (Raises TypeError, s')
    ∧ calls s' = [1].
Proof.
  apply (warm_up_results_are_added_outside_the_policy (lambda square)
           (Config 2 false 1 true None false true true true None)
           [] (PyList [1; 2; 3]) [] (PyInt 1) [] TypeError empty_state).
  - exact I.
  - by repeat constructor.
  - constructor.
  - reflexivity.
  - reflexivity.
  - reflexivity.
  - reflexivity.
Defined.
